(** Verification of twisted.trial._dist.disttrial: the distributed trial
    runner (worker pool life cycle, shared-iterator work distribution,
    per-iteration result aggregation and the run-until-failure loop). *)

From Stdlib Require Import DecimalString DecimalNat.
From stdpp Require Import base relations list strings gmap.

(** * Data model *)

(** [ITestCase]: an opaque handle with a stable identity. *)
Definition TestCase := nat.

(** What a reporter entry is recorded against: a test case of the suite or a
    synthetic [TestHolder(description)]. *)
Inductive Test :=
  | Case (c : TestCase)
  | TestHolder (description : string).

(** Instances of Python's [Exception]: what [except Exception] catches. *)
Inductive Exn :=
  | Exception (message : string).

Inductive Kind := KFailure | KError.

Record Entry := mkEntry { kind : Kind; test : Test; info : Exn }.

(** Modelled from the spec: the result sink ([DistReporter] and the reporter it
    wraps live in distreporter.py and reporter.py).  It accumulates failure and
    error entries, reports overall success and has a finalize action [done]. *)
Record Reporter := mkReporter { entries : list Entry; doneCalls : nat }.

Definition newReporter : Reporter := mkReporter [] 0.

Definition addEntries (es : list Entry) (r : Reporter) : Reporter :=
  mkReporter (entries r ++ es) (doneCalls r).

Definition addFailure (t : Test) (f : Exn) (r : Reporter) : Reporter :=
  addEntries [mkEntry KFailure t f] r.

Definition addError (t : Test) (f : Exn) (r : Reporter) : Reporter :=
  addEntries [mkEntry KError t f] r.

Definition wasSuccessful (r : Reporter) : bool :=
  match entries r with
  | [] => true
  | _ :: _ => false
  end.

Definition done (r : Reporter) : Reporter :=
  mkReporter (entries r) (S (doneCalls r)).

Definition isError (e : Entry) : bool :=
  match kind e with KError => true | KFailure => false end.

(** The observable behaviour of one remote [worker.run(case, result)] call:
    what the worker reported into the sink, and whether the call raised. *)
Record RunOutcome := mkOutcome { reported : list Entry; raised : option Exn }.

(** * The shared-iterator fan-out: [_driveWorker] under [StartedWorkerPool.run] *)

(** Where the coroutine of one worker driver is suspended.  The head of the
    [for case in testCases] loop is kept as a scheduling point of its own;
    Python runs from a resumption straight through the next [next()] call, so
    this only adds interleavings. *)
Inductive Driver :=
  | AtLoopHead
  | Awaiting (c : TestCase)
  | Finished.

Record FanState := mkFan {
  cursor : list TestCase;
  drivers : list Driver;
  result : Reporter;
  dispatched : list (nat * TestCase);
  completed : list (nat * TestCase)
}.

Definition weight (d : Driver) : nat :=
  match d with
  | AtLoopHead => 1
  | Awaiting _ => 2
  | Finished => 0
  end.

Definition weights (ds : list Driver) : nat := foldr (λ d n, weight d + n) 0 ds.

Definition measure (st : FanState) : nat :=
  2 * length (cursor st) + weights (drivers st).

Definition isFinished (d : Driver) : bool :=
  match d with Finished => true | _ => false end.

Definition allFinished (st : FanState) : bool := forallb isFinished (drivers st).

Definition tagged (w : nat) (d : Driver) : list (nat * TestCase) :=
  match d with
  | Awaiting c => [(w, c)]
  | _ => []
  end.

Fixpoint inflightFrom (i : nat) (ds : list Driver) : list (nat * TestCase) :=
  match ds with
  | [] => []
  | d :: ds' => tagged i d ++ inflightFrom (S i) ds'
  end.

Section Fanout.

(** [workerRun w c]: the outcome of [worker.run(case, result)] on the worker
    with index [w]. *)
Variable workerRun : nat -> TestCase -> RunOutcome.

(** The per-case boundary, from the resumption of the awaited call on:
<<
    async def task(case):
        try:
            await worker.run(case, result)
        except Exception:
            result.original.addFailure(case, Failure())
>> *)
Definition task (w : nat) (c : TestCase) (r : Reporter) : Reporter :=
  let o := workerRun w c in
  let r' := addEntries (reported o) r in
  match raised o with
  | Some e => addFailure (Case c) e r'
  | None => r'
  end.

Definition taskEntries (p : nat * TestCase) : list Entry :=
  let o := workerRun p.1 p.2 in
  reported o ++
  match raised o with
  | Some e => [mkEntry KFailure (Case p.2) e]
  | None => []
  end.

(** One scheduling step of driver [w]:
<<
    for case in testCases:
        await task(case)
>>
    [None] when there is no such driver or its coroutine has returned. *)
Definition _driveWorker (w : nat) (st : FanState) : option FanState :=
  match drivers st !! w with
  | None => None
  | Some Finished => None
  | Some AtLoopHead =>
      match cursor st with
      | [] =>
          Some (mkFan [] (<[w := Finished]> (drivers st)) (result st)
                  (dispatched st) (completed st))
      | c :: rest =>
          Some (mkFan rest (<[w := Awaiting c]> (drivers st)) (result st)
                  (dispatched st ++ [(w, c)]) (completed st))
      end
  | Some (Awaiting c) =>
      Some (mkFan (cursor st) (<[w := AtLoopHead]> (drivers st))
              (task w c (result st))
              (dispatched st) (completed st ++ [(w, c)]))
  end.

(** Any driver may be the next one to run. *)
Definition fanStep (st st' : FanState) : Prop :=
  ∃ w, _driveWorker w st = Some st'.

(** The fan-out starts one driver per AMP worker, all closing over the one
    iterator [iter(testCases)] and the one [result]. *)
Definition startFan (testCases : list TestCase) (numWorkers : nat)
    (r : Reporter) : FanState :=
  mkFan testCases (replicate numWorkers AtLoopHead) r [] [].

Fixpoint firstRunnable (i : nat) (ds : list Driver) : option nat :=
  match ds with
  | [] => None
  | d :: ds' => if isFinished d then firstRunnable (S i) ds' else Some i
  end.

(** A scheduler: [pick] proposes the driver to resume; a proposal that
    cannot run falls back to the first driver that can. *)
Definition schedule (pick : FanState -> nat) (st : FanState) : option FanState :=
  match _driveWorker (pick st) st with
  | Some st' => Some st'
  | None =>
      match firstRunnable 0 (drivers st) with
      | Some w => _driveWorker w st
      | None => None
      end
  end.

Fixpoint runFan (pick : FanState -> nat) (fuel : nat) (st : FanState) : FanState :=
  match fuel with
  | 0 => st
  | S fuel' =>
      match schedule pick st with
      | Some st' => runFan pick fuel' st'
      | None => st
      end
  end.

(** Modelled from the spec: [parallel] (functional.py) runs every branch to
    completion, under some interleaving, before it returns. *)
Definition parallel (pick : FanState -> nat) (st : FanState) : FanState :=
  runFan pick (measure st) st.

End Fanout.

(** * Effects: an event trace, the reporter object of the running iteration,
      the call counter of [countingCalls], and exceptions *)

Inductive Event :=
  | EvWrite (s : string)
  | EvClaimDirectory
  | EvOpenLog
  | EvSpawn (i : nat)
  | EvMakeResult (n : nat)
  | EvRun (n w : nat) (c : TestCase)
  | EvDone (r : Reporter)
  | EvJoin
  | EvExit (i : nat)
  | EvLogFailure (msg : string)
  | EvClearWorkers
  | EvCloseLog
  | EvUnlock
  | EvReactorStop.

Record World := mkWorld {
  trace : list Event;
  current : Reporter;
  counter : nat
}.

(** [Diverge]: the computation did not come back within the fuel given. *)
Inductive Res (A : Type) :=
  | Ok (a : A)
  | Raise (e : Exn)
  | Diverge.
Arguments Ok {A} a.
Arguments Raise {A} e.
Arguments Diverge {A}.

Definition M (A : Type) : Type := World -> Res A * World.

Definition ret {A} (a : A) : M A := λ w, (Ok a, w).

Definition bind {A B} (m : M A) (k : A -> M B) : M B :=
  λ w, match m w with
       | (Ok a, w') => k a w'
       | (Raise e, w') => (Raise e, w')
       | (Diverge, w') => (Diverge, w')
       end.

Notation "'let!' x ':=' m 'in' k" := (bind m (λ x, k))
  (at level 10, x name, m at level 100, k at level 200).
Notation "m ;> k" := (bind m (λ _, k))
  (at level 90, right associativity).

Definition raise {A} (e : Exn) : M A := λ w, (Raise e, w).

Definition emit (evs : list Event) : M unit :=
  λ w, (Ok tt, mkWorld (trace w ++ evs) (current w) (counter w)).

(** A call into a collaborator that may raise: the call is traced, then its
    outcome decides. *)
Definition call (ev : Event) (outcome : option Exn) : M unit :=
  emit [ev] ;>
  match outcome with
  | Some e => raise e
  | None => ret tt
  end.

Definition getResult : M Reporter := λ w, (Ok (current w), w).

Definition updResult (f : Reporter -> Reporter) : M unit :=
  λ w, (Ok tt, mkWorld (trace w) (f (current w)) (counter w)).

(** [try: body except Exception: handler] *)
Definition tryExcept {A} (body : M A) (handler : Exn -> M A) : M A :=
  λ w, match body w with
       | (Raise e, w') => handler e w'
       | other => other
       end.

(** [try: body finally: final]; a body that never comes back never reaches
    the [finally] suite. *)
Definition tryFinally {A B} (body : M A) (final : M B) : M A :=
  λ w, match body w with
       | (Ok a, w') =>
           match final w' with
           | (Ok _, w'') => (Ok a, w'')
           | (Raise e, w'') => (Raise e, w'')
           | (Diverge, w'') => (Diverge, w'')
           end
       | (Raise e, w') =>
           match final w' with
           | (Ok _, w'') => (Raise e, w'')
           | (Raise e', w'') => (Raise e', w'')
           | (Diverge, w'') => (Diverge, w'')
           end
       | (Diverge, w') => (Diverge, w')
       end.

Fixpoint forEach {A} (f : A -> M unit) (l : list A) : M unit :=
  match l with
  | [] => ret tt
  | x :: l' => f x ;> forEach f l'
  end.

Definition newline : string := String (Ascii.ascii_of_nat 10) EmptyString.

Definition str (n : nat) : string := NilEmpty.string_of_uint (Nat.to_uint n).

(** * Collaborators *)

(** Everything outside this module the run depends on. *)
Record Env := mkEnv {
  (** [_unusedTestDirectory] raising *)
  claimDirectory : option Exn;
  (** [openTestLog] raising *)
  openLog : option Exn;
  (** [reactor.spawnProcess] raising for the worker with this index *)
  spawnProcess : nat -> option Exn;
  (** [self._makeResult()] raising in this pass *)
  makeResult : nat -> option Exn;
  (** [worker.run(case, result)] in pass [n] on worker [w] *)
  workerRun : nat -> nat -> TestCase -> RunOutcome;
  (** the scheduler's choices in pass [n] *)
  pick : nat -> FanState -> nat;
  (** an exception leaving [pool.run] outside the per-case boundary, raised
      once the branches of the fan-out have ended; an exception that leaves
      [task] inside one driver and ends that driver early is not covered *)
  fanoutFault : nat -> option Exn;
  (** [worker.exit()] raising for the worker with this index *)
  workerExit : nat -> option Exn;
  (** [reactor.stop()] on a reactor that is not running: the exception it
      raises (Twisted's reactors raise [ReactorNotRunning]), or [None] for a
      reactor that accepts the call and then returns from [run()] at once *)
  stopWhenNotRunning : option Exn
}.

Record TestSuite := mkSuite {
  (** [list(_iterateTests(suite))] *)
  iterateTests : list TestCase;
  countTestCases : nat
}.

Record WorkerPoolConfig := mkConfig {
  numWorkers : nat;
  workingDirectory : string;
  workerArguments : list string;
  logFile : string
}.

(** Workers are named by their index; the claimed directory, lock and log are
    tracked by whether they are still held or open. *)
Record StartedWorkerPool := mkPool {
  testDirLocked : bool;
  testLogOpen : bool;
  workers : list nat;
  ampWorkers : list nat
}.

Record DistTrialRunner := mkRunner {
  _maxWorkers : nat;
  _workerArguments : list string;
  _workingDirectory : string;
  _logFile : string
}.

(** The awaits of [runAsync] that suspend its coroutine.  Modelled from the
    spec: the suspension points are the remote run-case call and the remote
    exit acknowledgement, answered only through the running reactor;
    [WorkerPool.start] has no [await] in its body and never suspends. *)
Definition isRemoteCall (ev : Event) : bool :=
  match ev with
  | EvRun _ _ _ | EvExit _ => true
  | _ => false
  end.

Definition suspended (evs : list Event) : bool := existsb isRemoteCall evs.

Section Runner.

Variable env : Env.

(** ** [StartedWorkerPool] *)

(** [StartedWorkerPool.run], with the action
    [partial(self._driveWorker, result, iter(testCases))] of pass [n]. *)
Definition run (pool : StartedWorkerPool) (n : nat) (testCases : list TestCase)
    : M unit :=
  let! r := getResult in
  let st := parallel (workerRun env n) (pick env n)
              (startFan testCases (length (ampWorkers pool)) r) in
  updResult (λ _, result st) ;>
  emit (map (λ p, EvRun n p.1 p.2) (dispatched st)) ;>
  match fanoutFault env n with
  | Some e => raise e
  | None => ret tt
  end.

(** [StartedWorkerPool.join] *)
Definition join (pool : StartedWorkerPool) : M StartedWorkerPool :=
  emit [EvJoin] ;>
  forEach (λ worker,
      tryExcept (call (EvExit worker) (workerExit env worker))
        (λ _, emit [EvLogFailure "joining disttrial worker failed"]))
    (workers pool) ;>
  emit [EvClearWorkers] ;>
  emit [EvCloseLog] ;>
  emit [EvUnlock] ;>
  ret (mkPool false false [] []).

(** ** [WorkerPool] *)

Definition createLocalWorkers (protocols : list nat) : list nat :=
  imap (λ x _, x) protocols.

Definition _launchWorkerProcesses (protocols : list nat) : M unit :=
  forEach (λ worker, call (EvSpawn worker) (spawnProcess env worker)) protocols.

Definition start (config : WorkerPoolConfig) : M StartedWorkerPool :=
  call EvClaimDirectory (claimDirectory env) ;>
  call EvOpenLog (openLog env) ;>
  let ampWorkers := seq 0 (numWorkers config) in
  let workers := createLocalWorkers ampWorkers in
  _launchWorkerProcesses workers ;>
  ret (mkPool true true workers ampWorkers).

(** ** The run-until-failure loop *)

Definition shouldContinue (untilFailure : bool) (r : Reporter) : bool :=
  untilFailure && wasSuccessful r.

(** Modelled from the spec: [countingCalls] (functional.py) wraps a function
    into a callable with a call counter of its own, which starts at zero and
    is passed to the function at each call. *)
Definition countingCalls {A} (f : nat -> M A) : M (M A) :=
  λ w, (Ok (λ w', f (counter w')
                    (mkWorld (trace w') (current w') (S (counter w')))),
        mkWorld (trace w) (current w) 0).

(** Modelled from the spec: [iterateWhile] (functional.py) repeats the action
    and goes on if and only if the predicate holds of the latest result. *)
Fixpoint iterateWhile {A} (fuel : nat) (predicate : A -> bool) (action : M A)
    : M A :=
  match fuel with
  | 0 => λ w, (Diverge, w)
  | S fuel' =>
      let! r := action in
      if predicate r then iterateWhile fuel' predicate action else ret r
  end.

(** ** [DistTrialRunner] *)

Variable self : DistTrialRunner.

Definition writeResults : M unit :=
  updResult done ;>
  let! r := getResult in
  emit [EvDone r].

Definition passLine (n : nat) : Event :=
  EvWrite ("Test Pass " +:+ str (n + 1) +:+ newline).

Definition runTests (untilFailure : bool) (pool : StartedWorkerPool)
    (testCases : list TestCase) (n : nat) : M Reporter :=
  (if untilFailure then emit [passLine n] else ret tt) ;>
  call (EvMakeResult n) (makeResult env n) ;>
  updResult (λ _, newReporter) ;>
  tryExcept (run pool n testCases)
    (λ e, updResult (addError (TestHolder "<runTests>") e)) ;>
  writeResults ;>
  getResult.

Definition poolConfig (testCases : list TestCase) : WorkerPoolConfig :=
  mkConfig (min (length testCases) (_maxWorkers self))
    (_workingDirectory self) (_workerArguments self) (_logFile self).

(** The body of the [try] in [runAsync]:
<<
    iterateWhile(
        partial(shouldContinue, untilFailure),
        countingCalls(partial(runTests, startedPool, testCases)),
    )
>> *)
Definition iterations (fuel : nat) (untilFailure : bool)
    (startedPool : StartedWorkerPool) (testCases : list TestCase) : M Reporter :=
  let! action := countingCalls (runTests untilFailure startedPool testCases) in
  iterateWhile fuel (shouldContinue untilFailure) action.

Definition announcement (suite : TestSuite) : Event :=
  EvWrite ("Running " +:+ str (countTestCases suite) +:+ " tests." +:+ newline).

Definition runAsync (fuel : nat) (suite : TestSuite) (untilFailure : bool)
    : M Reporter :=
  let testCases := iterateTests suite in
  let poolStarter := poolConfig testCases in
  emit [announcement suite] ;>
  let! startedPool := start poolStarter in
  tryFinally (iterations fuel untilFailure startedPool testCases)
    (join startedPool).

(** [DistTrialRunner._run]:
<<
    d = Deferred.fromCoroutine(self.runAsync(suite, reactor, *args, **kwargs))
    d.addBoth(capture)
    d.addBoth(lambda ignored: reactor.stop())
    reactor.run()
    if isinstance(result, Failure):
        result.raiseException()
    return result
>>
    When the coroutine has suspended, [d] fires inside [reactor.run()]: the
    callback stops the running reactor, [run()] returns and the captured
    outcome is handed over.  When the coroutine has ended without suspending,
    [d] has fired before [addBoth], so that [reactor.stop()] is called before
    [reactor.run()]: a reactor that accepts this returns from [run()] at once;
    one that refuses it (the exception stays in [d]) is never stopped, and
    [run()] does not return.  [EvReactorStop] traces the call of
    [reactor.stop()]. *)
Definition _run (fuel : nat) (suite : TestSuite) (untilFailure : bool)
    : M Reporter :=
  λ w, match runAsync fuel suite untilFailure w with
       | (Diverge, w') => (Diverge, w')
       | (res, w') =>
           let w'' := mkWorld (trace w' ++ [EvReactorStop]) (current w')
                        (counter w') in
           if suspended (drop (length (trace w)) (trace w'))
           then (res, w'')
           else match stopWhenNotRunning env with
                | Some _ => (Diverge, w'')
                | None => (res, w'')
                end
       end.

Definition runUntilFailure (fuel : nat) (suite : TestSuite) : M Reporter :=
  _run fuel suite true.

End Runner.

Definition world0 : World := mkWorld [] newReporter 0.

(** * Observations on traces, and sample collaborators *)

Definition notRunning : Exn := Exception "Can't stop reactor that isn't running.".

Definition quietRun : nat -> TestCase -> RunOutcome := λ _ _, mkOutcome [] None.

Definition errorsOf (es : list Entry) : list Entry := List.filter isError es.

Definition demoEnv : Env :=
  mkEnv None None (λ _, None) (λ _, None)
    (λ n _ c, if (n =? 2) && (c =? 5)
              then mkOutcome [] (Some (Exception "connection lost"))
              else mkOutcome [] None)
    (λ _ _, 1) (λ _, None)
    (λ i, if i =? 0 then Some (Exception "exit failed") else None)
    (Some notRunning).

Definition demoPool : StartedWorkerPool := mkPool true true [0; 1] [0; 1].

Definition flakyRun : nat -> TestCase -> RunOutcome :=
  λ _ c, if c =? 5 then mkOutcome [] (Some (Exception "connection lost"))
         else mkOutcome [] None.

(** What a trace shows: the passes begun (calls of [_makeResult]), the
    reporters finalized, the lines written, the calls of [join], the exit
    requests and the processes spawned. *)
Definition begun (tr : list Event) : list nat :=
  omap (λ ev, match ev with EvMakeResult n => Some n | _ => None end) tr.

Definition finalized (tr : list Event) : list Reporter :=
  omap (λ ev, match ev with EvDone r => Some r | _ => None end) tr.

Definition written (tr : list Event) : list Event :=
  List.filter (λ ev, match ev with EvWrite _ => true | _ => false end) tr.

Definition joins (tr : list Event) : nat :=
  length (List.filter (λ ev, match ev with EvJoin => true | _ => false end) tr).

Definition exitRequests (tr : list Event) : list nat :=
  omap (λ ev, match ev with EvExit i => Some i | _ => None end) tr.

Definition spawned (tr : list Event) : list nat :=
  omap (λ ev, match ev with EvSpawn i => Some i | _ => None end) tr.

Definition ranCases (tr : list Event) : list TestCase :=
  omap (λ ev, match ev with EvRun _ _ c => Some c | _ => None end) tr.

Section Shapes.

Variable env : Env.

(** The events of one exit request of [join]. *)
Definition exitAttempt (worker : nat) : list Event :=
  EvExit worker ::
  match workerExit env worker with
  | Some _ => [EvLogFailure "joining disttrial worker failed"]
  | None => []
  end.

Definition joinEvents (pool : StartedWorkerPool) : list Event :=
  EvJoin :: flat_map exitAttempt (workers pool)
    ++ [EvClearWorkers; EvCloseLog; EvUnlock].

Variable untilFailure : bool.
Variable pool : StartedWorkerPool.
Variable testCases : list TestCase.

Definition passHead (n : nat) : list Event :=
  (if untilFailure then [passLine n] else []) ++ [EvMakeResult n].

Definition passFan (n : nat) : FanState :=
  parallel (workerRun env n) (pick env n)
    (startFan testCases (length (ampWorkers pool)) newReporter).

Definition passResult (n : nat) : Reporter :=
  done match fanoutFault env n with
       | Some e => addError (TestHolder "<runTests>") e (result (passFan n))
       | None => result (passFan n)
       end.

Definition passEvents (n : nat) : list Event :=
  passHead n ++ map (λ p, EvRun n p.1 p.2) (dispatched (passFan n))
    ++ [EvDone (passResult n)].

(** The shape of what the loop leaves in the trace, from pass [n] on, and
    how it ends. *)
Inductive LoopShape : nat -> nat -> Res Reporter -> list Event -> Prop :=
  | shape_out n :
      LoopShape n 0 Diverge []
  | shape_raise n fuel e :
      makeResult env n = Some e ->
      LoopShape n (S fuel) (Raise e) (passHead n)
  | shape_stop n fuel :
      makeResult env n = None ->
      shouldContinue untilFailure (passResult n) = false ->
      LoopShape n (S fuel) (Ok (passResult n)) (passEvents n)
  | shape_next n fuel res evs :
      makeResult env n = None ->
      shouldContinue untilFailure (passResult n) = true ->
      LoopShape (S n) fuel res evs ->
      LoopShape n (S fuel) res (passEvents n ++ evs).

End Shapes.

(** The events [WorkerPool.start] can leave. *)
Definition isStartEvent (ev : Event) : bool :=
  match ev with
  | EvClaimDirectory | EvOpenLog | EvSpawn _ => true
  | _ => false
  end.

(** The events one pass of [runTests] or the loop can leave. *)
Definition isPassEvent (ev : Event) : bool :=
  match ev with
  | EvWrite _ | EvMakeResult _ | EvRun _ _ _ | EvDone _ => true
  | _ => false
  end.

(** The world once [runAsync] has written its announcement. *)
Definition announced (suite : TestSuite) (w : World) : World :=
  mkWorld (trace w ++ [announcement suite]) (current w) (counter w).

Definition extend (w : World) (evs : list Event) : World :=
  mkWorld (trace w ++ evs) (current w) (counter w).

Definition failingExit : Env :=
  mkEnv None None (λ _, None) (λ _, None) (λ _, quietRun) (λ _ _, 0) (λ _, None)
    (λ i, if i =? 0 then Some (Exception "exit failed") else None)
    (Some notRunning).

Definition faultyFanout : Env :=
  mkEnv None None (λ _, None) (λ _, None) (λ _, quietRun) (λ _ _, 0)
    (λ _, Some (Exception "fan-out broke")) (λ _, None)
    (Some notRunning).

Definition demoRunner : DistTrialRunner := mkRunner 2 [] "_trial_temp" "test.log".

Definition lockedOut : Env :=
  mkEnv (Some (Exception "no usable directory")) None (λ _, None) (λ _, None)
    (λ _, quietRun) (λ _ _, 0) (λ _, None) (λ _, None)
    (Some notRunning).

Definition spawnFails : Env :=
  mkEnv None None (λ i, if i =? 1 then Some (Exception "fork failed") else None)
    (λ _, None) (λ _, quietRun) (λ _ _, 0) (λ _, None) (λ _, None)
    (Some notRunning).

Definition brokenReporter : Env :=
  mkEnv None None (λ _, None)
    (λ n, if n =? 1 then Some (Exception "no reporter") else None)
    (λ _, quietRun) (λ _ _, 0) (λ _, None) (λ _, None)
    (Some notRunning).

Definition quietEnv : Env :=
  mkEnv None None (λ _, None) (λ _, None) (λ _, quietRun) (λ _ _, 0)
    (λ _, None) (λ _, None)
    (Some notRunning).

(** A fake reactor that lets [stop()] come before [run()]. *)
Definition lenientEnv : Env :=
  mkEnv None None (λ _, None) (λ _, None) (λ _, quietRun) (λ _ _, 0)
    (λ _, None) (λ _, None) None.

Definition demoSuite : TestSuite := mkSuite [4; 5; 6] 3.

Definition emptySuite : TestSuite := mkSuite [] 0.

(** * Further readings of the source *)

(** [_driveWorker] for a worker that is alone in the pool: each [await
    task(case)] ends before the next case is taken from the iterator. *)
Definition driveAlone (workerRun : nat -> TestCase -> RunOutcome) (w : nat)
    (testCases : list TestCase) (r : Reporter) : Reporter :=
  foldl (λ r c, task workerRun w c r) r testCases.

(** The calls of one worker in a log of the fan-out. *)
Definition callsOf (w : nat) (l : list (nat * TestCase)) : list (nat * TestCase) :=
  filter (λ p, p.1 = w) l.

(** The calls of each worker are strictly sequential. *)
Definition sequentialPerWorker (st : FanState) : Prop :=
  ∀ w, callsOf w (dispatched st)
       = callsOf w (completed st)
           ++ match drivers st !! w with
              | Some (Awaiting c) => [(w, c)]
              | _ => []
              end.


Definition flakyEnv : Env :=
  mkEnv None None (λ _, None) (λ _, None) (λ _, flakyRun) (λ _ _, 0)
    (λ _, None) (λ _, None)
    (Some notRunning).

Definition idlePool : StartedWorkerPool := mkPool true true [] [].

(** Releases of the directory lock, and stops of the reactor, in a trace. *)
Definition unlocks (tr : list Event) : nat :=
  length (List.filter (λ ev, match ev with EvUnlock => true | _ => false end) tr).

Definition reactorStops (tr : list Event) : nat :=
  length (List.filter (λ ev, match ev with EvReactorStop => true | _ => false end)
            tr).

(** ** The layout of the working directory: [WorkerPool.createLocalWorkers] *)

(** [FilePath], by its segments. *)
Definition FilePath := list string.

Definition child (p : FilePath) (name : string) : FilePath := p ++ [name].

(** [LocalWorker(ampProtocol, logDirectory, outLog)] *)
Record LocalWorker := mkLocalWorker {
  lwProtocol : nat;
  lwDirectory : FilePath;
  lwLog : string
}.

Module Layout.

(** [[LocalWorker(protocol, workingDirectory.child(str(x)), logFile)
      for x, protocol in enumerate(protocols)]] *)
Definition createLocalWorkers (protocols : list nat)
    (workingDirectory : FilePath) (logFile : string) : list LocalWorker :=
  imap (λ x protocol,
          mkLocalWorker protocol (child workingDirectory (str x)) logFile)
    protocols.

End Layout.

(** ** What the spawner is called with: [WorkerPool._launchWorkerProcesses] *)

(** What the function reads from [sys], [os], [theSystemPath] and the package
    constants. *)
Record Platform := mkPlatform {
  sys_executable : string;
  sys_path : list string;
  os_pathsep : string;
  os_environ : gmap string string;
  workertrialPath : string;
  _WORKER_AMP_STDIN : nat;
  _WORKER_AMP_STDOUT : nat
}.

Record SpawnCall := mkSpawnCall {
  scProtocol : nat;
  scExecutable : string;
  scArgs : list string;
  scChildFDs : gmap nat string;
  scEnv : gmap string string
}.

Module Launch.

(** The dictionary display of [childFDs]: a later key replaces an earlier
    equal one. *)
Definition childFDs (p : Platform) : gmap nat string :=
  <[_WORKER_AMP_STDOUT p := "r"]>
    (<[_WORKER_AMP_STDIN p := "w"]>
       (<[2 := "r"]> (<[1 := "r"]> (<[0 := "w"]> ∅)))).

(** [os.environ.copy()] with [PYTHONPATH] set to [os.pathsep.join(sys.path)]. *)
Definition environ (p : Platform) : gmap string string :=
  <["PYTHONPATH" := String.concat (os_pathsep p) (sys_path p)]> (os_environ p).

Definition spawnCall (p : Platform) (arguments : list string) (worker : nat)
    : SpawnCall :=
  mkSpawnCall worker (sys_executable p)
    ([sys_executable p; workertrialPath p] ++ arguments)
    (childFDs p) (environ p).

(** The loop over the protocols: the calls made, in order, and the exception
    of the spawner that ended the loop, if any. *)
Fixpoint _launchWorkerProcesses (p : Platform) (spawner : SpawnCall -> option Exn)
    (protocols : list nat) (arguments : list string)
    : list SpawnCall * option Exn :=
  match protocols with
  | [] => ([], None)
  | worker :: rest =>
      let c := spawnCall p arguments worker in
      match spawner c with
      | Some e => ([c], Some e)
      | None =>
          let (calls, outcome) := _launchWorkerProcesses p spawner rest arguments in
          (c :: calls, outcome)
      end
  end.

End Launch.

Definition demoPlatform : Platform :=
  mkPlatform "/usr/bin/python3" ["/srv/app"; "/usr/lib/python3"] ":"
    (<["PYTHONPATH" := "/old"]> (<["HOME" := "/root"]> ∅))
    "/usr/lib/python3/twisted/trial/_dist/workertrial.py" 3 4.
(** * The fan-out: invariants of the shared iterator *)

Lemma weights_insert (ds : list Driver) (w : nat) (d d' : Driver) :
  ds !! w = Some d ->
  weights (<[w := d']> ds) + weight d = weights ds + weight d'.
Proof.
  unfold weights.
  revert w. induction ds as [|x ds IH]; intros [|w] Hw; simplify_eq/=.
  - lia.
  - specialize (IH _ Hw). lia.
Qed.

Lemma inflight_insert (ds : list Driver) (i w : nat) (d d' : Driver) :
  ds !! w = Some d ->
  inflightFrom i (<[w := d']> ds) ++ tagged (i + w) d
    ≡ₚ inflightFrom i ds ++ tagged (i + w) d'.
Proof.
  revert i w. induction ds as [|x ds IH]; intros i [|w] Hw; simplify_eq/=.
  - rewrite Nat.add_0_r.
    rewrite (Permutation_app_comm (tagged i d') _), (Permutation_app_comm (tagged i d) _).
    rewrite <- !app_assoc. apply Permutation_app_head, Permutation_app_comm.
  - rewrite <- !app_assoc. apply Permutation_app_head.
    replace (i + S w) with (S i + w) by lia. by apply IH.
Qed.

Lemma inflight_allFinished (ds : list Driver) (i : nat) :
  forallb isFinished ds = true -> inflightFrom i ds = [].
Proof.
  revert i. induction ds as [|[] ds IH]; intros i H; simplify_eq/=; auto.
Qed.

Lemma firstRunnable_spec (ds : list Driver) (i : nat) :
  match firstRunnable i ds with
  | Some w => ∃ d, i <= w ∧ ds !! (w - i) = Some d ∧ isFinished d = false
  | None => forallb isFinished ds = true
  end.
Proof.
  revert i. induction ds as [|d ds IH]; intros i; simpl; [done|].
  destruct (isFinished d) eqn:Hd.
  - specialize (IH (S i)). destruct (firstRunnable (S i) ds) as [w|]; [|done].
    destruct IH as (d' & Hle & Hl & Hf). exists d'. split; [lia|]. split; [|done].
    replace (w - i) with (S (w - S i)) by lia. done.
  - exists d. rewrite Nat.sub_diag. done.
Qed.

Lemma forallb_insert_finished (ds : list Driver) (w : nat) :
  forallb isFinished ds = true -> ∀ d, ds !! w = Some d -> isFinished d = true.
Proof.
  intros H d Hd. rewrite forallb_forall in H. apply H.
  apply list_elem_of_In. eapply list_elem_of_lookup_2; eauto.
Qed.

Lemma finished_insert (ds : list Driver) (w : nat) (d : Driver) :
  Finished ∈ <[w := d]> ds -> d ≠ Finished -> Finished ∈ ds.
Proof.
  intros Hin Hd. apply list_elem_of_lookup in Hin as [j Hj].
  destruct (decide (w = j)) as [->|Hne].
  - destruct (decide (j < length ds)).
    + rewrite list_lookup_insert_eq in Hj by done. congruence.
    + rewrite list_insert_ge in Hj by lia. apply list_elem_of_lookup. eauto.
  - rewrite list_lookup_insert_ne in Hj by done.
    apply list_elem_of_lookup. eauto.
Qed.

Section FanoutFacts.

Variable workerRun : nat -> TestCase -> RunOutcome.

Local Abbreviation step := (_driveWorker workerRun).

Lemma step_measure (w : nat) (st st' : FanState) :
  step w st = Some st' -> S (measure st') = measure st.
Proof.
  unfold _driveWorker, measure.
  destruct (drivers st !! w) as [[]|] eqn:Hw; [|intros; simplify_eq/=..|done|done].
  - destruct (cursor st) as [|c rest] eqn:Hc; intros; simplify_eq/=.
    + pose proof (weights_insert _ _ _ Finished Hw); simpl in *; lia.
    + pose proof (weights_insert _ _ _ (Awaiting c) Hw); simpl in *; lia.
  - pose proof (weights_insert _ _ _ AtLoopHead Hw); simpl in *; lia.
Qed.

Lemma step_enabled (w : nat) (d : Driver) (st : FanState) :
  drivers st !! w = Some d -> isFinished d = false -> is_Some (step w st).
Proof.
  intros Hw Hd. unfold _driveWorker. rewrite Hw.
  destruct d; [destruct (cursor st)|..]; simplify_eq/=; eauto.
Qed.

Lemma step_disabled (w : nat) (st : FanState) :
  allFinished st = true -> step w st = None.
Proof.
  intros H. unfold _driveWorker.
  destruct (drivers st !! w) as [d|] eqn:Hw; [|done].
  pose proof (forallb_insert_finished _ w H d Hw). by destruct d.
Qed.

(** The scheduler stops exactly when every driver has returned. *)
Lemma schedule_None (pick : FanState -> nat) (st : FanState) :
  schedule workerRun pick st = None <-> allFinished st = true.
Proof.
  unfold schedule. split.
  - destruct (step (pick st) st); [done|].
    pose proof (firstRunnable_spec (drivers st) 0) as Hf.
    destruct (firstRunnable 0 (drivers st)) as [w|]; [|done].
    destruct Hf as (d & _ & Hl & Hd). rewrite Nat.sub_0_r in Hl.
    destruct (step_enabled w d st Hl Hd) as [st' ->]. done.
  - intros H. rewrite (step_disabled _ _ H).
    destruct (firstRunnable 0 (drivers st)); [|done]. by apply step_disabled.
Qed.

Lemma schedule_step (pick : FanState -> nat) (st st' : FanState) :
  schedule workerRun pick st = Some st' -> fanStep workerRun st st'.
Proof.
  unfold schedule, fanStep.
  destruct (step (pick st) st) eqn:H1; [intros; simplify_eq; eauto|].
  destruct (firstRunnable 0 (drivers st)); [eauto|done].
Qed.

Lemma runFan_steps (pick : FanState -> nat) (fuel : nat) (st : FanState) :
  rtc (fanStep workerRun) st (runFan workerRun pick fuel st).
Proof.
  revert st. induction fuel as [|fuel IH]; intros st; simpl; [done|].
  destruct (schedule workerRun pick st) as [st'|] eqn:Hs; [|done].
  eapply rtc_l; [by eapply schedule_step|apply IH].
Qed.

Lemma runFan_finishes (pick : FanState -> nat) (fuel : nat) (st : FanState) :
  measure st <= fuel -> allFinished (runFan workerRun pick fuel st) = true.
Proof.
  revert st. induction fuel as [|fuel IH]; intros st Hm; simpl.
  - apply (schedule_None pick).
    destruct (schedule workerRun pick st) as [st'|] eqn:Hs; [|done].
    apply schedule_step in Hs as [w Hs]. apply step_measure in Hs. lia.
  - destruct (schedule workerRun pick st) as [st'|] eqn:Hs.
    + apply IH. apply schedule_step in Hs as [w Hs]. apply step_measure in Hs. lia.
    + by apply (schedule_None pick).
Qed.

(** What holds of every state the fan-out can reach. *)
Record FanInv (testCases : list TestCase) (r0 : Reporter) (W : nat)
    (st : FanState) : Prop := mkFanInv {
  inv_cursor : (dispatched st).*2 ++ cursor st = testCases;
  inv_inflight :
    dispatched st ≡ₚ completed st ++ inflightFrom 0 (drivers st);
  inv_entries :
    entries (result st)
      = entries r0 ++ flat_map (taskEntries workerRun) (completed st);
  inv_done : doneCalls (result st) = doneCalls r0;
  inv_exhausted : Finished ∈ drivers st -> cursor st = [];
  inv_owner : Forall (λ p, p.1 < W) (dispatched st);
  inv_width : length (drivers st) = W
}.

Lemma startFan_inv (testCases : list TestCase) (r0 : Reporter) (W : nat) :
  FanInv testCases r0 W (startFan testCases W r0).
Proof.
  split; simpl; auto.
  - clear. generalize 0. induction W; intros; simpl; auto.
  - by rewrite app_nil_r.
  - intros H%elem_of_replicate. by destruct H.
  - by rewrite length_replicate.
Qed.

Lemma task_entries (w : nat) (c : TestCase) (r : Reporter) :
  entries (task workerRun w c r) = entries r ++ taskEntries workerRun (w, c).
Proof.
  unfold task, taskEntries. simpl.
  destruct (raised (workerRun w c)); simpl; by rewrite ?app_nil_r, <- ?app_assoc.
Qed.

Lemma task_doneCalls (w : nat) (c : TestCase) (r : Reporter) :
  doneCalls (task workerRun w c r) = doneCalls r.
Proof. unfold task. by destruct (raised (workerRun w c)). Qed.

Lemma step_inv (testCases : list TestCase) (r0 : Reporter) (W w : nat)
    (st st' : FanState) :
  FanInv testCases r0 W st -> step w st = Some st' -> FanInv testCases r0 W st'.
Proof.
  intros [Hc Hi He Hd Hx Ho Hw]. unfold _driveWorker.
  destruct (drivers st !! w) as [d|] eqn:Hl; [|done].
  pose proof (lookup_lt_Some _ _ _ Hl) as Hlt.
  destruct d as [|c|]; [destruct (cursor st) as [|c rest] eqn:Hcur|..];
    intros; simplify_eq/=; split; simpl;
    rewrite ?length_insert; auto.
  - pose proof (inflight_insert _ 0 _ _ Finished Hl) as Hp. simpl in Hp.
    rewrite !app_nil_r in Hp. by rewrite Hp.
  - by rewrite fmap_app, <- app_assoc.
  - pose proof (inflight_insert _ 0 _ _ (Awaiting c) Hl) as Hp. simpl in Hp.
    rewrite app_nil_r in Hp. rewrite Hp, Hi. by rewrite app_assoc.
  - intros Hin. apply finished_insert in Hin; [|done]. by apply Hx in Hin.
  - apply Forall_app. split; [done|]. constructor; [simpl; lia|constructor].
  - pose proof (inflight_insert _ 0 _ _ AtLoopHead Hl) as Hp. simpl in Hp.
    rewrite app_nil_r in Hp. rewrite Hi, <- Hp.
    rewrite <- app_assoc. apply Permutation_app_head, Permutation_app_comm.
  - rewrite task_entries, He, flat_map_app. simpl.
    by rewrite app_nil_r, app_assoc.
  - by rewrite task_doneCalls.
  - intros Hin. apply finished_insert in Hin; [|done]. by apply Hx.
Qed.

Lemma steps_inv (testCases : list TestCase) (r0 : Reporter) (W : nat)
    (st st' : FanState) :
  rtc (fanStep workerRun) st st' ->
  FanInv testCases r0 W st -> FanInv testCases r0 W st'.
Proof.
  induction 1 as [|x y z [w Hs] _ IH]; [done|].
  intros Hx. apply IH. by eapply step_inv.
Qed.

(** When every driver has returned, the iterator was exhausted by one of
    them, provided there was a driver at all. *)
Lemma finished_exhausted (testCases : list TestCase) (r0 : Reporter) (W : nat)
    (st : FanState) :
  FanInv testCases r0 W st -> allFinished st = true -> 1 <= W ->
  cursor st = [].
Proof.
  intros Hinv Hall HW. apply (inv_exhausted _ _ _ _ Hinv).
  destruct (drivers st) as [|d ds] eqn:Hd.
  - pose proof (inv_width _ _ _ _ Hinv) as Hlen. rewrite Hd in Hlen. simpl in *. lia.
  - unfold allFinished in Hall. rewrite Hd in Hall. simpl in Hall.
    apply andb_prop in Hall as [H1 _]. destruct d; try done. left.
Qed.

Lemma finished_completed (testCases : list TestCase) (r0 : Reporter) (W : nat)
    (st : FanState) :
  FanInv testCases r0 W st -> allFinished st = true ->
  completed st ≡ₚ dispatched st.
Proof.
  intros Hinv Hall. rewrite (inv_inflight _ _ _ _ Hinv).
  rewrite (inflight_allFinished _ 0 Hall). by rewrite app_nil_r.
Qed.

End FanoutFacts.

(** * Work distribution: every case once *)


(** C1, as stated, fails when the configured maximum is zero: the pool then
    has no driver, the fan-out is over at once, and the only case of the suite
    is never dispatched. *)
Lemma no_driver_omits_cases :
  ¬ (∀ (testCases : list TestCase) (maxWorkers : nat) (st : FanState),
        rtc (fanStep quietRun)
          (startFan testCases (min (length testCases) maxWorkers) newReporter) st ->
        allFinished st = true ->
        (dispatched st).*2 = testCases).
Proof.
  intros H. specialize (H [7] 0 (startFan [7] 0 newReporter)).
  simpl in H. discriminate H; [apply rtc_refl|reflexivity].
Qed.

(** The same at the level of the session: with a configured maximum of zero
    the run of a one-case suite spawns nothing, runs nothing and reports
    success. *)
Example zero_max_workers_runs_nothing :
  let out := runAsync quietEnv (mkRunner 0 [] "_trial_temp" "test.log") 1
               (mkSuite [7] 1) false world0 in
  out.1 = Ok (mkReporter [] 1)
  ∧ spawned (trace out.2) = []
  ∧ ranCases (trace out.2) = [].
Proof. vm_compute. done. Qed.

(** C1 (amended): with at least one worker driver (a configured maximum of at
    least one, unless the suite is empty), every interleaving of the drivers
    over the shared iterator comes to an end, and at its end the calls
    dispatched are the test cases of the suite, one call per case and in
    order, each made by one driver of the pool, and each call has completed
    exactly once. *)
Theorem shared_iterator_each_case_once
    (workerRun : nat -> TestCase -> RunOutcome)
    (testCases : list TestCase) (maxWorkers : nat) (r0 : Reporter) :
  (testCases ≠ [] -> 1 <= maxWorkers) ->
  let W := min (length testCases) maxWorkers in
  let st0 := startFan testCases W r0 in
  (∀ pick, rtc (fanStep workerRun) st0 (parallel workerRun pick st0)
           ∧ allFinished (parallel workerRun pick st0) = true)
  ∧ (∀ st, rtc (fanStep workerRun) st0 st ->
       (dispatched st).*2 ++ cursor st = testCases
       ∧ Forall (λ p, p.1 < W) (dispatched st))
  ∧ (∀ st, rtc (fanStep workerRun) st0 st -> allFinished st = true ->
       (dispatched st).*2 = testCases
       ∧ completed st ≡ₚ dispatched st).
Proof.
  intros Hmax W st0.
  pose proof (startFan_inv workerRun testCases r0 W) as H0.
  split; [|split].
  - intros pick. split; [apply runFan_steps|by apply runFan_finishes].
  - intros st Hst. pose proof (steps_inv _ _ _ _ _ _ Hst H0) as Hinv.
    split; [apply (inv_cursor _ _ _ _ _ Hinv)|apply (inv_owner _ _ _ _ _ Hinv)].
  - intros st Hst Hall. pose proof (steps_inv _ _ _ _ _ _ Hst H0) as Hinv.
    split; [|by eapply finished_completed].
    pose proof (inv_cursor _ _ _ _ _ Hinv) as Hc.
    destruct (decide (testCases = [])) as [->|Hne].
    + by destruct (dispatched st).
    + rewrite (finished_exhausted _ _ _ _ _ Hinv Hall), app_nil_r in Hc; [done|].
      subst W. specialize (Hmax Hne).
      apply Nat.min_glb; [destruct testCases; [done|simpl; lia]|done].
Qed.

Lemma shared_iterator_each_case_once_witness :
  ([4; 5; 6] ≠ [] -> 1 <= 2)
  ∧ let st := parallel quietRun (λ _, 1) (startFan [4; 5; 6] 2 newReporter) in
    (dispatched st).*2 = [4; 5; 6] ∧ completed st ≡ₚ dispatched st.
Proof.
  assert (Hmax : [4; 5; 6] ≠ [] -> 1 <= 2) by lia.
  split; [exact Hmax|].
  destruct (shared_iterator_each_case_once quietRun [4; 5; 6] 2 newReporter Hmax)
    as (Hrun & _ & Hfin).
  destruct (Hrun (λ _, 1)) as [Hsteps Hall]. apply (Hfin _ Hsteps Hall).
Defined.

(** * Per-case failures *)


Lemma errorsOf_taskEntries (workerRun : nat -> TestCase -> RunOutcome)
    (l : list (nat * TestCase)) :
  errorsOf (flat_map (taskEntries workerRun) l)
    = flat_map (λ p, errorsOf (reported (workerRun p.1 p.2))) l.
Proof.
  unfold errorsOf. induction l as [|p l IH]; [done|]. simpl.
  rewrite List.filter_app, IH. f_equal. unfold taskEntries.
  rewrite List.filter_app. destruct (raised (workerRun p.1 p.2)); simpl;
    by rewrite app_nil_r.
Qed.

Lemma failure_in_taskEntries (workerRun : nat -> TestCase -> RunOutcome)
    (l : list (nat * TestCase)) (p : nat * TestCase) (e : Exn) :
  p ∈ l -> raised (workerRun p.1 p.2) = Some e ->
  mkEntry KFailure (Case p.2) e ∈ flat_map (taskEntries workerRun) l.
Proof.
  intros Hin He. apply list_elem_of_In, in_flat_map. exists p.
  split; [by apply list_elem_of_In|]. apply list_elem_of_In.
  unfold taskEntries. rewrite He. apply elem_of_app. right. left.
Qed.

(** [StartedWorkerPool.run] in closed form. *)
Lemma run_eq (env : Env) (pool : StartedWorkerPool) (n : nat)
    (testCases : list TestCase) (w : World) :
  let st := parallel (workerRun env n) (pick env n)
              (startFan testCases (length (ampWorkers pool)) (current w)) in
  run env pool n testCases w
    = (match fanoutFault env n with Some e => Raise e | None => Ok tt end,
       mkWorld (trace w ++ map (λ p, EvRun n p.1 p.2) (dispatched st))
         (result st) (counter w)).
Proof.
  unfold run, bind, getResult, updResult, emit, raise, ret. simpl.
  by destruct (fanoutFault env n).
Qed.

Lemma parallel_inv (workerRun : nat -> TestCase -> RunOutcome)
    (pick : FanState -> nat) (testCases : list TestCase) (W : nat) (r0 : Reporter) :
  let st := parallel workerRun pick (startFan testCases W r0) in
  FanInv workerRun testCases r0 W st ∧ allFinished st = true.
Proof.
  split.
  - eapply steps_inv; [apply runFan_steps|apply startFan_inv].
  - by apply runFan_finishes.
Qed.

(** C4: whatever the remote run-case calls of a pass do, [pool.run] returns
    normally (nothing propagates out of the per-case boundary); every case of
    the suite is still run, in order; the reporter receives, for every case,
    what the worker reported, and a failure entry against each case whose
    call raised. *)
Theorem per_case_failure_isolated (env : Env) (pool : StartedWorkerPool)
    (n : nat) (testCases : list TestCase) (w : World) :
  fanoutFault env n = None ->
  1 <= length (ampWorkers pool) ->
  ∃ (w' : World) (ran : list (nat * TestCase)) (finished : list (nat * TestCase)),
    run env pool n testCases w = (Ok tt, w')
    ∧ trace w' = trace w ++ map (λ p, EvRun n p.1 p.2) ran
    ∧ ran.*2 = testCases
    ∧ finished ≡ₚ ran
    ∧ entries (current w')
        = entries (current w) ++ flat_map (taskEntries (workerRun env n)) finished
    ∧ (∀ p e, p ∈ finished -> raised (workerRun env n p.1 p.2) = Some e ->
         mkEntry KFailure (Case p.2) e ∈ entries (current w')).
Proof.
  intros Hfault Hpool. rewrite run_eq, Hfault.
  set (st := parallel _ _ _).
  destruct (parallel_inv (workerRun env n) (pick env n) testCases
              (length (ampWorkers pool)) (current w)) as [Hinv Hall].
  fold st in Hinv, Hall.
  exists (mkWorld (trace w ++ map (λ p, EvRun n p.1 p.2) (dispatched st))
            (result st) (counter w)), (dispatched st), (completed st).
  simpl. split; [done|]. split; [done|].
  pose proof (inv_cursor _ _ _ _ _ Hinv) as Hc.
  rewrite (finished_exhausted _ _ _ _ _ Hinv Hall Hpool), app_nil_r in Hc.
  split; [done|]. split; [by eapply finished_completed|].
  split; [apply (inv_entries _ _ _ _ _ Hinv)|].
  intros p e Hp He. rewrite (inv_entries _ _ _ _ _ Hinv).
  apply elem_of_app. right. by apply failure_in_taskEntries.
Qed.



Lemma per_case_failure_isolated_witness :
  fanoutFault demoEnv 2 = None
  ∧ 1 <= length (ampWorkers demoPool)
  ∧ ∃ (w' : World) (ran finished : list (nat * TestCase)),
      run demoEnv demoPool 2 [4; 5; 6] world0 = (Ok tt, w')
      ∧ trace w' = trace world0 ++ map (λ p, EvRun 2 p.1 p.2) ran
      ∧ ran.*2 = [4; 5; 6]
      ∧ finished ≡ₚ ran
      ∧ entries (current w')
          = entries (current world0)
              ++ flat_map (taskEntries (workerRun demoEnv 2)) finished
      ∧ (∀ p e, p ∈ finished -> raised (workerRun demoEnv 2 p.1 p.2) = Some e ->
           mkEntry KFailure (Case p.2) e ∈ entries (current w')).
Proof.
  split; [reflexivity|]. split; [simpl; lia|].
  apply (per_case_failure_isolated demoEnv demoPool 2 [4; 5; 6] world0);
    [reflexivity|simpl; lia].
Defined.

(** C9: the per-case handler records through [addFailure] only.  In every
    state the fan-out reaches, under any interleaving, the error entries of
    the reporter are those it started with and those the workers reported
    themselves, and every completed call that raised has left a failure entry
    against its case; once all drivers of a non-empty pool have returned, the
    completed calls cover the suite. *)
Theorem caught_exception_recorded_as_failure
    (workerRun : nat -> TestCase -> RunOutcome)
    (testCases : list TestCase) (W : nat) (r0 : Reporter) (st : FanState) :
  rtc (fanStep workerRun) (startFan testCases W r0) st ->
  (∀ w c r, errorsOf (entries (task workerRun w c r))
            = errorsOf (entries r) ++ errorsOf (reported (workerRun w c)))
  ∧ errorsOf (entries (result st))
      = errorsOf (entries r0)
          ++ flat_map (λ p, errorsOf (reported (workerRun p.1 p.2))) (completed st)
  ∧ (∀ p e, p ∈ completed st -> raised (workerRun p.1 p.2) = Some e ->
       mkEntry KFailure (Case p.2) e ∈ entries (result st))
  ∧ (allFinished st = true -> 1 <= W -> (completed st).*2 ≡ₚ testCases).
Proof.
  intros Hst.
  pose proof (steps_inv _ _ _ _ _ _ Hst (startFan_inv workerRun testCases r0 W))
    as Hinv.
  pose proof (inv_entries _ _ _ _ _ Hinv) as He.
  split; [|split; [|split]].
  - intros w c r. rewrite task_entries. unfold errorsOf, taskEntries. simpl.
    rewrite !List.filter_app.
    destruct (raised (workerRun w c)); simpl; by rewrite app_nil_r.
  - rewrite He. unfold errorsOf at 1. rewrite List.filter_app.
    f_equal. apply errorsOf_taskEntries.
  - intros p e Hp Hr. rewrite He. apply elem_of_app. right.
    by apply failure_in_taskEntries.
  - intros Hall HW. rewrite (finished_completed _ _ _ _ _ Hinv Hall).
    pose proof (inv_cursor _ _ _ _ _ Hinv) as Hc.
    rewrite (finished_exhausted _ _ _ _ _ Hinv Hall HW), app_nil_r in Hc.
    by rewrite Hc.
Qed.


Lemma caught_exception_recorded_as_failure_witness :
  let st := parallel flakyRun (λ _, 0) (startFan [4; 5; 6] 2 newReporter) in
  rtc (fanStep flakyRun) (startFan [4; 5; 6] 2 newReporter) st
  ∧ errorsOf (entries (result st)) = []
  ∧ mkEntry KFailure (Case 5) (Exception "connection lost") ∈ entries (result st).
Proof.
  intros st.
  assert (Hst : rtc (fanStep flakyRun) (startFan [4; 5; 6] 2 newReporter) st)
    by apply runFan_steps.
  split; [exact Hst|].
  destruct (caught_exception_recorded_as_failure flakyRun [4; 5; 6] 2
              newReporter st Hst) as (_ & Herr & Hfail & _).
  split.
  - rewrite Herr. reflexivity.
  - apply (Hfail (0, 5)); [|reflexivity].
    vm_compute. right. left.
Defined.

(** * Closed forms of the effectful operations *)

Lemma world_eta (w : World) : mkWorld (trace w) (current w) (counter w) = w.
Proof. by destruct w. Qed.

Lemma call_eq (ev : Event) (outcome : option Exn) (w : World) :
  call ev outcome w
  = (match outcome with Some e => Raise e | None => Ok tt end,
     mkWorld (trace w ++ [ev]) (current w) (counter w)).
Proof. unfold call, bind, emit, raise, ret. by destruct outcome. Qed.

Section RunnerFacts.

Variable env : Env.
Variable self : DistTrialRunner.

Lemma join_exits (ws : list nat) (w : World) :
  forEach (λ worker,
      tryExcept (call (EvExit worker) (workerExit env worker))
        (λ _, emit [EvLogFailure "joining disttrial worker failed"])) ws w
  = (Ok tt, mkWorld (trace w ++ flat_map (exitAttempt env) ws)
              (current w) (counter w)).
Proof.
  revert w. induction ws as [|i ws IH]; intros w; simpl.
  - by rewrite app_nil_r, world_eta.
  - unfold bind at 1. unfold tryExcept, call, bind, emit, raise, ret, exitAttempt.
    simpl. destruct (workerExit env i); simpl; rewrite IH; simpl;
      by rewrite <- !app_assoc.
Qed.

Lemma join_eq (pool : StartedWorkerPool) (w : World) :
  join env pool w
  = (Ok (mkPool false false [] []),
     mkWorld (trace w ++ joinEvents env pool) (current w) (counter w)).
Proof.
  unfold join, joinEvents, bind at 1 2. unfold emit at 1. simpl.
  rewrite join_exits. unfold bind, emit, ret. simpl.
  by rewrite <- !app_assoc.
Qed.

Lemma runTests_eq (untilFailure : bool) (pool : StartedWorkerPool)
    (testCases : list TestCase) (n : nat) (w : World) :
  runTests env untilFailure pool testCases n w
  = match makeResult env n with
    | Some e =>
        (Raise e,
         mkWorld (trace w ++ passHead untilFailure n) (current w) (counter w))
    | None =>
        (Ok (passResult env pool testCases n),
         mkWorld (trace w ++ passEvents env untilFailure pool testCases n)
           (passResult env pool testCases n) (counter w))
    end.
Proof.
  unfold runTests, passEvents, passResult, passHead, passFan, writeResults,
    call, tryExcept, bind, emit, ret, raise, updResult, getResult.
  destruct untilFailure, (makeResult env n); cbn beta iota;
    rewrite ?run_eq; cbn [trace current counter];
    try (by rewrite <- ?app_assoc);
    destruct (fanoutFault env n); cbn [trace current counter];
    by rewrite <- ?app_assoc.
Qed.

Lemma loop_shape (untilFailure : bool) (pool : StartedWorkerPool)
    (testCases : list TestCase) (fuel : nat) (w : World) :
  ∃ res evs cur k,
    iterateWhile fuel (shouldContinue untilFailure)
      (λ w', runTests env untilFailure pool testCases (counter w')
               (mkWorld (trace w') (current w') (S (counter w')))) w
    = (res, mkWorld (trace w ++ evs) cur k)
    ∧ LoopShape env untilFailure pool testCases (counter w) fuel res evs.
Proof.
  revert w. induction fuel as [|fuel IH]; intros w; simpl.
  - exists Diverge, [], (current w), (counter w).
    rewrite app_nil_r, world_eta. split; [done|constructor].
  - unfold bind. rewrite runTests_eq. simpl.
    destruct (makeResult env (counter w)) as [e|] eqn:Hmk.
    + eexists _, _, _, _. split; [done|]. by constructor.
    + destruct (shouldContinue untilFailure
                  (passResult env pool testCases (counter w))) eqn:Hgo.
      * destruct (IH (mkWorld
            (trace w ++ passEvents env untilFailure pool testCases (counter w))
            (passResult env pool testCases (counter w)) (S (counter w))))
          as (res & evs & cur & k & Heq & Hshape).
        simpl in Heq, Hshape. rewrite Heq.
        eexists res, _, cur, k. rewrite <- app_assoc. split; [done|].
        by constructor.
      * eexists _, _, _, _. split; [done|]. by constructor.
Qed.

Lemma iterations_shape (untilFailure : bool) (pool : StartedWorkerPool)
    (testCases : list TestCase) (fuel : nat) (w : World) :
  ∃ res evs cur k,
    iterations env fuel untilFailure pool testCases w
    = (res, mkWorld (trace w ++ evs) cur k)
    ∧ LoopShape env untilFailure pool testCases 0 fuel res evs.
Proof.
  unfold iterations, bind, countingCalls.
  apply (loop_shape untilFailure pool testCases fuel
           (mkWorld (trace w) (current w) 0)).
Qed.

End RunnerFacts.

(** * Reading traces *)

Lemma joins_app (a b : list Event) : joins (a ++ b) = joins a + joins b.
Proof. unfold joins. by rewrite List.filter_app, length_app. Qed.

Lemma written_app (a b : list Event) : written (a ++ b) = written a ++ written b.
Proof. unfold written. by rewrite List.filter_app. Qed.

Lemma begun_app (a b : list Event) : begun (a ++ b) = begun a ++ begun b.
Proof. apply omap_app. Qed.

Lemma finalized_app (a b : list Event) :
  finalized (a ++ b) = finalized a ++ finalized b.
Proof. apply omap_app. Qed.

Lemma start_events_silent (evs : list Event) :
  forallb isStartEvent evs = true ->
  joins evs = 0 ∧ begun evs = [] ∧ finalized evs = [] ∧ written evs = []
  ∧ ranCases evs = [].
Proof.
  induction evs as [|ev evs IH]; [done|]. simpl.
  intros [Hev Hevs]%andb_prop. destruct (IH Hevs) as (? & ? & ? & ? & ?).
  unfold joins, begun, finalized, written, ranCases in *.
  destruct ev; simplify_eq/=; auto.
Qed.

Lemma pass_events_no_join (evs : list Event) :
  forallb isPassEvent evs = true -> joins evs = 0 ∧ spawned evs = [].
Proof.
  induction evs as [|ev evs IH]; [done|]. simpl.
  intros [Hev Hevs]%andb_prop. destruct (IH Hevs) as [? ?].
  unfold joins, spawned in *. destruct ev; simplify_eq/=; auto.
Qed.

Lemma runs_observed (n : nat) (l : list (nat * TestCase)) :
  let evs := map (λ p, EvRun n p.1 p.2) l in
  begun evs = [] ∧ finalized evs = [] ∧ written evs = []
  ∧ ranCases evs = l.*2 ∧ forallb isPassEvent evs = true.
Proof.
  induction l as [|p l (? & ? & ? & ? & ?)]; [done|]. simpl.
  unfold begun, finalized, written, ranCases in *. simpl.
  repeat split; auto. by f_equal.
Qed.

Section TraceFacts.

Variable env : Env.

Lemma exits_observed (ws : list nat) :
  let evs := flat_map (exitAttempt env) ws in
  exitRequests evs = ws ∧ joins evs = 0 ∧ begun evs = [] ∧ finalized evs = []
  ∧ written evs = [].
Proof.
  induction ws as [|i ws (? & ? & ? & ? & ?)]; [done|]. simpl.
  unfold exitRequests, joins, begun, finalized, written, exitAttempt in *.
  destruct (workerExit env i); simpl; repeat split; auto; by f_equal.
Qed.

Lemma joinEvents_observed (pool : StartedWorkerPool) :
  let evs := joinEvents env pool in
  exitRequests evs = workers pool ∧ joins evs = 1 ∧ begun evs = []
  ∧ finalized evs = [] ∧ written evs = [].
Proof.
  destruct (exits_observed (workers pool)) as (He & Hj & Hb & Hf & Hw).
  unfold joinEvents. cbv zeta.
  change (EvJoin :: ?l) with ([EvJoin] ++ l).
  rewrite !joins_app, !begun_app, !finalized_app, !written_app, Hj, Hb, Hf, Hw.
  unfold exitRequests in *. rewrite !omap_app, He. simpl.
  by rewrite app_nil_r.
Qed.

Variable untilFailure : bool.
Variable pool : StartedWorkerPool.
Variable testCases : list TestCase.

Lemma passHead_observed (n : nat) :
  let evs := passHead untilFailure n in
  begun evs = [n] ∧ finalized evs = []
  ∧ written evs = (if untilFailure then [passLine n] else [])
  ∧ forallb isPassEvent evs = true.
Proof. unfold passHead. by destruct untilFailure. Qed.

Lemma passEvents_observed (n : nat) :
  let evs := passEvents env untilFailure pool testCases n in
  begun evs = [n] ∧ finalized evs = [passResult env pool testCases n]
  ∧ written evs = (if untilFailure then [passLine n] else [])
  ∧ forallb isPassEvent evs = true.
Proof.
  destruct (passHead_observed n) as (Hb & Hf & Hw & Hp).
  destruct (runs_observed n (dispatched (passFan env pool testCases n)))
    as (Hb' & Hf' & Hw' & _ & Hp').
  unfold passEvents. simpl.
  rewrite !begun_app, !finalized_app, !written_app, !forallb_app,
    Hb, Hf, Hw, Hp, Hb', Hf', Hw', Hp'. simpl.
  by rewrite app_nil_r.
Qed.

Local Abbreviation Shape := (LoopShape env untilFailure pool testCases).

(** The passes are numbered consecutively, each finalized reporter belongs
    to a pass begun, and only a raising [_makeResult] leaves a pass begun
    but not finalized. *)
Lemma shape_passes (n fuel : nat) (res : Res Reporter) (evs : list Event) :
  Shape n fuel res evs ->
  begun evs = seq n (length (begun evs))
  ∧ length (begun evs) <= fuel
  ∧ forallb isPassEvent evs = true
  ∧ written evs = (if untilFailure then map passLine (begun evs) else [])
  ∧ match res with
    | Ok r =>
        length (finalized evs) = length (begun evs)
        ∧ last (finalized evs) = Some r
        ∧ shouldContinue untilFailure r = false
    | Raise e =>
        length (begun evs) = S (length (finalized evs))
        ∧ makeResult env (n + length (finalized evs)) = Some e
    | Diverge =>
        length (finalized evs) = length (begun evs)
        ∧ length (begun evs) = fuel
    end.
Proof.
  induction 1 as [n|n fuel e Hmk|n fuel Hmk Hstop
                 |n fuel res evs Hmk Hgo Hrest IH].
  - by destruct untilFailure.
  - destruct (passHead_observed n) as (Hb & Hf & Hw & Hp).
    rewrite Hb, Hf, Hw, Hp. simpl. rewrite Nat.add_0_r.
    repeat split; auto; try lia; by destruct untilFailure.
  - destruct (passEvents_observed n) as (Hb & Hf & Hw & Hp).
    rewrite Hb, Hf, Hw, Hp. simpl.
    repeat split; auto; try lia; by destruct untilFailure.
  - destruct (passEvents_observed n) as (Hb & Hf & Hw & Hp).
    destruct IH as (IHb & IHl & IHp & IHw & IHres).
    rewrite begun_app, finalized_app, written_app, forallb_app,
      Hb, Hf, Hw, Hp, IHw, IHp. simpl.
    split; [by rewrite <- IHb|]. split; [lia|]. split; [done|].
    split; [by destruct untilFailure|].
    destruct res as [r|e|].
    + destruct IHres as (Hlen & Hlast & Hstop). split; [lia|]. split; [|done].
      destruct (finalized evs); [done|]. done.
    + destruct IHres as (Hlen & Hraise). split; [lia|].
      by replace (n + S (length (finalized evs)))
           with (S n + length (finalized evs)) by lia.
    + destruct IHres as (Hlen & Hfuel). split; lia.
Qed.

(** After a finalized pass the loop goes on exactly when [shouldContinue]
    says so. *)
Lemma shape_continues (n fuel : nat) (res : Res Reporter) (evs : list Event) :
  Shape n fuel res evs ->
  ∀ i r, finalized evs !! i = Some r ->
    (S i < length (begun evs) ∨ res = Diverge)
    <-> shouldContinue untilFailure r = true.
Proof.
  induction 1 as [n|n fuel e Hmk|n fuel Hmk Hstop
                 |n fuel res evs Hmk Hgo Hrest IH]; intros i r Hi.
  - done.
  - destruct (passHead_observed n) as (Hb & Hf & Hw & Hp).
    rewrite Hf in Hi. done.
  - destruct (passEvents_observed n) as (Hb & Hf & Hw & Hp).
    rewrite Hf in Hi. rewrite Hb. destruct i; simplify_eq/=.
    rewrite Hstop. split; [intros [?|?]; [lia|done]|done].
  - destruct (passEvents_observed n) as (Hb & Hf & Hw & Hp).
    rewrite finalized_app, Hf in Hi. rewrite begun_app, Hb.
    destruct i as [|i]; simplify_eq/=.
    + rewrite Hgo. split; [done|]. intros _.
      inversion Hrest; subst; auto; left;
        rewrite ?begun_app;
        try (destruct (passHead_observed (S n)) as (-> & _));
        try (destruct (passEvents_observed (S n)) as (-> & _));
        simpl; lia.
    + rewrite <- (IH i r Hi). split; (intros [?|?]; [left; lia|by right]).
Qed.

End TraceFacts.

(** * Starting the pool *)

Lemma createLocalWorkers_seq (n : nat) : createLocalWorkers (seq 0 n) = seq 0 n.
Proof.
  unfold createLocalWorkers.
  assert (H : ∀ (l : list nat) k, imap (λ x _, k + x) l = seq k (length l)).
  { induction l as [|x l IH]; intros k; simpl; [done|]. f_equal; [lia|].
    rewrite <- (IH (S k)). apply imap_ext. intros; simpl; lia. }
  specialize (H (seq 0 n) 0). simpl in H. by rewrite H, length_seq.
Qed.

Section StartFacts.

Variable env : Env.

Lemma launch_frame (ws : list nat) (w : World) :
  ∃ res evs,
    _launchWorkerProcesses env ws w
      = (res, mkWorld (trace w ++ evs) (current w) (counter w))
    ∧ forallb isStartEvent evs = true
    ∧ match res with
      | Ok _ => evs = map EvSpawn ws
      | Raise e => ∃ i, i ∈ ws ∧ spawnProcess env i = Some e
      | Diverge => False
      end.
Proof.
  revert w. induction ws as [|i ws IH]; intros w.
  - exists (Ok tt), []. simpl. by rewrite app_nil_r, world_eta.
  - unfold _launchWorkerProcesses in *. simpl.
    unfold bind at 1. rewrite call_eq.
    destruct (spawnProcess env i) as [e|] eqn:Hs.
    + exists (Raise e), [EvSpawn i]. repeat split; auto.
      exists i. split; [left|done].
    + destruct (IH (mkWorld (trace w ++ [EvSpawn i]) (current w) (counter w)))
        as (res & evs & Heq & Hev & Hres).
      simpl in Heq. rewrite Heq.
      exists res, (EvSpawn i :: evs). rewrite <- app_assoc.
      repeat split; auto. destruct res as [[]|e|]; [by subst| |done].
      destruct Hres as (j & Hj & He). exists j. split; [by right|done].
Qed.

Lemma launch_ok (ws : list nat) (w : World) :
  (∀ i, i ∈ ws -> spawnProcess env i = None) ->
  _launchWorkerProcesses env ws w
    = (Ok tt, mkWorld (trace w ++ map EvSpawn ws) (current w) (counter w)).
Proof.
  intros Hok. destruct (launch_frame ws w) as (res & evs & Heq & _ & Hres).
  rewrite Heq. destruct res as [[]|e|]; [by subst| |done].
  destruct Hres as (i & Hi & He). rewrite (Hok i Hi) in He. done.
Qed.

Lemma start_frame (config : WorkerPoolConfig) (w : World) :
  ∃ res evs,
    start env config w = (res, mkWorld (trace w ++ evs) (current w) (counter w))
    ∧ forallb isStartEvent evs = true
    ∧ match res with
      | Ok pool =>
          pool = mkPool true true (seq 0 (numWorkers config))
                   (seq 0 (numWorkers config))
          ∧ evs = [EvClaimDirectory; EvOpenLog]
                    ++ map EvSpawn (seq 0 (numWorkers config))
      | Raise e =>
          claimDirectory env = Some e ∨ openLog env = Some e
          ∨ ∃ i, i < numWorkers config ∧ spawnProcess env i = Some e
      | Diverge => False
      end.
Proof.
  unfold start. rewrite createLocalWorkers_seq.
  unfold bind at 1. rewrite call_eq.
  destruct (claimDirectory env) as [e|]; simpl.
  { exists (Raise e), [EvClaimDirectory]. auto. }
  unfold bind at 1. rewrite call_eq.
  destruct (openLog env) as [e|]; simpl.
  { exists (Raise e), [EvClaimDirectory; EvOpenLog].
    rewrite <- app_assoc. auto. }
  unfold bind.
  destruct (launch_frame (seq 0 (numWorkers config))
              (mkWorld ((trace w ++ [EvClaimDirectory]) ++ [EvOpenLog])
                 (current w) (counter w)))
    as (res & evs & Heq & Hev & Hres).
  rewrite Heq. simpl.
  destruct res as [[]|e|]; [| |done].
  - exists (Ok (mkPool true true (seq 0 (numWorkers config))
                  (seq 0 (numWorkers config)))),
      ([EvClaimDirectory; EvOpenLog] ++ evs).
    unfold ret. rewrite <- !app_assoc. simpl. subst evs. auto.
  - exists (Raise e), ([EvClaimDirectory; EvOpenLog] ++ evs).
    rewrite <- !app_assoc. simpl. repeat split; auto.
    destruct Hres as (i & Hi & He). right. right. exists i.
    apply elem_of_seq in Hi. split; [lia|done].
Qed.

Lemma start_ok (config : WorkerPoolConfig) (w : World) :
  claimDirectory env = None -> openLog env = None ->
  (∀ i, i < numWorkers config -> spawnProcess env i = None) ->
  start env config w
    = (Ok (mkPool true true (seq 0 (numWorkers config))
             (seq 0 (numWorkers config))),
       mkWorld (trace w ++ [EvClaimDirectory; EvOpenLog]
                  ++ map EvSpawn (seq 0 (numWorkers config)))
         (current w) (counter w)).
Proof.
  intros Hc Ho Hs. destruct (start_frame config w) as (res & evs & Heq & _ & Hres).
  rewrite Heq. destruct res as [pool|e|]; [| |done].
  - by destruct Hres as [-> ->].
  - destruct Hres as [H|[H|(i & Hi & H)]]; [congruence|congruence|].
    rewrite (Hs i Hi) in H. done.
Qed.

End StartFacts.

(** * Shutting the pool down *)

(** C6: [join] requests the exit of every worker of the pool, in order; a
    request that fails is logged and the next worker is still asked; after the
    last request the worker lists are cleared, the log is closed and the
    directory lock is released, and [join] itself returns normally. *)
Theorem join_attempts_every_worker (env : Env) (pool : StartedWorkerPool)
    (w : World) :
  let out := join env pool w in
  out.1 = Ok (mkPool false false [] [])
  ∧ trace out.2
      = trace w ++ [EvJoin] ++ flat_map (exitAttempt env) (workers pool)
          ++ [EvClearWorkers; EvCloseLog; EvUnlock]
  ∧ exitRequests (trace out.2) = exitRequests (trace w) ++ workers pool
  ∧ (∀ i, exitAttempt env i
          = EvExit i :: match workerExit env i with
                        | Some _ => [EvLogFailure "joining disttrial worker failed"]
                        | None => []
                        end).
Proof.
  cbv zeta. rewrite join_eq. simpl. split; [done|]. split; [done|].
  split; [|done].
  destruct (joinEvents_observed env pool) as (He & _).
  unfold exitRequests in *. by rewrite omap_app, He.
Qed.

Lemma join_attempts_every_worker_witness :
  let out := join failingExit demoPool world0 in
  out.1 = Ok (mkPool false false [] [])
  ∧ trace out.2
      = [EvJoin; EvExit 0; EvLogFailure "joining disttrial worker failed";
         EvExit 1; EvClearWorkers; EvCloseLog; EvUnlock].
Proof.
  destruct (join_attempts_every_worker failingExit demoPool world0)
    as (Hres & Htrace & _).
  split; [exact Hres|]. rewrite Htrace. reflexivity.
Defined.

(** * One iteration *)

Lemma passFan_facts (env : Env) (pool : StartedWorkerPool)
    (testCases : list TestCase) (n : nat) :
  doneCalls (result (passFan env pool testCases n)) = 0
  ∧ entries (result (passFan env pool testCases n))
      = flat_map (taskEntries (workerRun env n))
          (completed (passFan env pool testCases n)).
Proof.
  destruct (parallel_inv (workerRun env n) (pick env n) testCases
              (length (ampWorkers pool)) newReporter) as [Hinv _].
  split; [apply (inv_done _ _ _ _ _ Hinv)|apply (inv_entries _ _ _ _ _ Hinv)].
Qed.

(** C5: when an exception leaves the fan-out of a pass outside the per-case
    boundary, [runTests] does not raise: it adds an error entry against the
    synthetic holder ["<runTests>"] to the reporter of the pass, after what
    the drivers recorded, finalizes the reporter once and returns it. *)
Theorem runner_fault_recorded_as_error (env : Env) (untilFailure : bool)
    (pool : StartedWorkerPool) (testCases : list TestCase) (n : nat)
    (w : World) (e : Exn) :
  makeResult env n = None ->
  fanoutFault env n = Some e ->
  ∃ r w',
    runTests env untilFailure pool testCases n w = (Ok r, w')
    ∧ entries r
        = entries (result (passFan env pool testCases n))
            ++ [mkEntry KError (TestHolder "<runTests>") e]
    ∧ doneCalls r = 1
    ∧ wasSuccessful r = false
    ∧ current w' = r
    ∧ last (trace w') = Some (EvDone r).
Proof.
  intros Hmk Hfault. rewrite runTests_eq, Hmk.
  eexists _, _. split; [done|]. unfold passResult. rewrite Hfault. simpl.
  destruct (passFan_facts env pool testCases n) as [-> _].
  split; [done|]. split; [done|]. split.
  { unfold wasSuccessful. simpl.
    by destruct (entries (result (passFan env pool testCases n))). }
  split; [done|]. unfold passEvents, passResult. rewrite Hfault.
  by rewrite !app_assoc, last_snoc.
Qed.

Lemma runner_fault_recorded_as_error_witness :
  makeResult faultyFanout 0 = None
  ∧ fanoutFault faultyFanout 0 = Some (Exception "fan-out broke")
  ∧ ∃ r w',
      runTests faultyFanout false demoPool [4; 5] 0 world0 = (Ok r, w')
      ∧ entries r
          = entries (result (passFan faultyFanout demoPool [4; 5] 0))
              ++ [mkEntry KError (TestHolder "<runTests>")
                    (Exception "fan-out broke")]
      ∧ doneCalls r = 1
      ∧ wasSuccessful r = false
      ∧ current w' = r
      ∧ last (trace w') = Some (EvDone r).
Proof.
  split; [reflexivity|]. split; [reflexivity|].
  apply (runner_fault_recorded_as_error faultyFanout false demoPool [4; 5] 0
           world0 (Exception "fan-out broke")); reflexivity.
Defined.

(** * The session *)

Section SessionFacts.

Variable env : Env.
Variable self : DistTrialRunner.

Lemma runAsync_eq (fuel : nat) (suite : TestSuite) (untilFailure : bool)
    (w : World) :
  runAsync env self fuel suite untilFailure w
  = match start env (poolConfig self (iterateTests suite)) (announced suite w) with
    | (Ok pool, w1) =>
        match iterations env fuel untilFailure pool (iterateTests suite) w1 with
        | (Ok r, w2) => (Ok r, extend w2 (joinEvents env pool))
        | (Raise e, w2) => (Raise e, extend w2 (joinEvents env pool))
        | (Diverge, w2) => (Diverge, w2)
        end
    | (Raise e, w1) => (Raise e, w1)
    | (Diverge, w1) => (Diverge, w1)
    end.
Proof.
  unfold runAsync. unfold bind at 1. unfold emit at 1. unfold bind at 1.
  change (mkWorld (trace w ++ [announcement suite]) (current w) (counter w))
    with (announced suite w).
  destruct (start env (poolConfig self (iterateTests suite)) (announced suite w))
    as [[pool|e|] w1]; [|done..].
  unfold tryFinally.
  destruct (iterations env fuel untilFailure pool (iterateTests suite) w1)
    as [[r|e|] w2]; [| |done]; by rewrite join_eq.
Qed.

Lemma session_events (w : World) (evs : list Event) :
  drop (length (trace w)) (trace w ++ evs) = evs.
Proof. apply drop_app_length. Qed.

Lemma _run_eq (fuel : nat) (suite : TestSuite) (untilFailure : bool)
    (w : World) :
  _run env self fuel suite untilFailure w
  = match runAsync env self fuel suite untilFailure w with
    | (Diverge, w') => (Diverge, w')
    | (res, w') =>
        if suspended (drop (length (trace w)) (trace w'))
        then (res, extend w' [EvReactorStop])
        else match stopWhenNotRunning env with
             | Some _ => (Diverge, extend w' [EvReactorStop])
             | None => (res, extend w' [EvReactorStop])
             end
    end.
Proof. reflexivity. Qed.

Lemma passResult_finalized (pool : StartedWorkerPool)
    (testCases : list TestCase) (n : nat) :
  doneCalls (passResult env pool testCases n) = 1.
Proof.
  unfold passResult. destruct (passFan_facts env pool testCases n) as [H _].
  destruct (fanoutFault env n); simpl; by rewrite H.
Qed.

Lemma shape_result_finalized (untilFailure : bool) (pool : StartedWorkerPool)
    (testCases : list TestCase) (n fuel : nat) (r : Reporter)
    (evs : list Event) :
  LoopShape env untilFailure pool testCases n fuel (Ok r) evs ->
  doneCalls r = 1.
Proof.
  remember (Ok r) as res eqn:Hres. induction 1; simplify_eq; auto.
  apply passResult_finalized.
Qed.

Lemma shape_single_pass (pool : StartedWorkerPool) (testCases : list TestCase)
    (n fuel : nat) (res : Res Reporter) (evs : list Event) :
  LoopShape env false pool testCases n (S fuel) res evs ->
  begun evs = [n] ∧ res ≠ Diverge.
Proof.
  inversion 1; subst.
  - by destruct (passHead_observed false n) as (-> & _).
  - by destruct (passEvents_observed env false pool testCases n) as (-> & _).
  - done.
Qed.

End SessionFacts.

(** C3: the passes of the run-until-failure loop are numbered from zero
    without gaps; after a pass whose reporter has been finalized the loop goes
    on (begins a further pass, or is still going when the fuel of the model
    runs out) if and only if [untilFailure] is set and that reporter reports
    success; with [untilFailure] unset the loop begins exactly one pass and
    comes back, whatever the outcome of the pass. *)
Theorem run_until_failure_continues_iff (env : Env) (fuel : nat)
    (untilFailure : bool) (pool : StartedWorkerPool)
    (testCases : list TestCase) (w : World) :
  let out := iterations env fuel untilFailure pool testCases w in
  ∃ evs,
    trace out.2 = trace w ++ evs
    ∧ begun evs = seq 0 (length (begun evs))
    ∧ (∀ i r, finalized evs !! i = Some r ->
         (S i < length (begun evs) ∨ out.1 = Diverge)
         <-> (untilFailure = true ∧ wasSuccessful r = true))
    ∧ (out.1 = Diverge -> length (begun evs) = fuel)
    ∧ (untilFailure = false -> 1 <= fuel ->
         begun evs = [0] ∧ out.1 ≠ Diverge).
Proof.
  cbv zeta.
  destruct (iterations_shape env untilFailure pool testCases fuel w)
    as (res & evs & cur & k & -> & Hshape).
  exists evs. simpl. split; [done|].
  destruct (shape_passes _ _ _ _ _ _ _ _ Hshape) as (Hb & _ & _ & _ & Hres).
  split; [done|]. split; [|split].
  - intros i r Hi. rewrite (shape_continues _ _ _ _ _ _ _ _ Hshape i r Hi).
    unfold shouldContinue. apply andb_true_iff.
  - intros ->. by destruct Hres.
  - intros -> Hfuel. destruct fuel as [|fuel]; [lia|].
    by apply shape_single_pass in Hshape.
Qed.

Lemma run_until_failure_continues_iff_witness :
  let out := iterations demoEnv 5 true demoPool [4; 5; 6] world0 in
  ∃ evs,
    trace out.2 = trace world0 ++ evs
    ∧ begun evs = seq 0 (length (begun evs))
    ∧ (∀ i r, finalized evs !! i = Some r ->
         (S i < length (begun evs) ∨ out.1 = Diverge)
         <-> (true = true ∧ wasSuccessful r = true))
    ∧ (out.1 = Diverge -> length (begun evs) = 5)
    ∧ (true = false -> 1 <= 5 -> begun evs = [0] ∧ out.1 ≠ Diverge).
Proof.
  exact (run_until_failure_continues_iff demoEnv 5 true demoPool [4; 5; 6] world0).
Defined.

(** With the sample collaborators the third pass is the first to fail: the
    loop performs three passes and writes no fourth progress line. *)
Example three_passes_then_stop :
  let out := runUntilFailure demoEnv demoRunner 10 (mkSuite [4; 5; 6] 3) world0 in
  begun (trace out.2) = [0; 1; 2]
  ∧ written (trace out.2)
      = [announcement (mkSuite [4; 5; 6] 3); passLine 0; passLine 1; passLine 2]
  ∧ joins (trace out.2) = 1.
Proof. vm_compute. done. Qed.


Section CountedLoop.

Variable env : Env.
Variable untilFailure : bool.
Variable pool : StartedWorkerPool.
Variable testCases : list TestCase.




End CountedLoop.


Lemma start_events_no_exit (evs : list Event) :
  forallb isStartEvent evs = true ->
  exitRequests evs = [] ∧ suspended evs = false.
Proof.
  induction evs as [|ev evs IH]; [done|]. simpl.
  intros [Hev Hevs]%andb_prop. destruct (IH Hevs) as [? ?].
  unfold exitRequests, suspended in *. destruct ev; simplify_eq/=; auto.
Qed.

(** C10: when [start] raises, because the directory cannot be claimed, the
    log cannot be opened or a worker process cannot be spawned, [runAsync]
    raises the same exception to whoever awaits it, at once: no pass is
    begun, no exit is requested and [join] is not called. *)
Theorem startup_failure_skips_join (env : Env) (self : DistTrialRunner)
    (fuel : nat) (suite : TestSuite) (untilFailure : bool) (w w1 : World)
    (e : Exn) :
  start env (poolConfig self (iterateTests suite)) (announced suite w)
    = (Raise e, w1) ->
  runAsync env self fuel suite untilFailure w = (Raise e, w1)
  ∧ joins (trace w1) = joins (trace w)
  ∧ begun (trace w1) = begun (trace w)
  ∧ exitRequests (trace w1) = exitRequests (trace w)
  ∧ (claimDirectory env = Some e ∨ openLog env = Some e
     ∨ ∃ i, i < min (length (iterateTests suite)) (_maxWorkers self)
            ∧ spawnProcess env i = Some e).
Proof.
  intros Hstart. rewrite runAsync_eq, Hstart. split; [done|].
  destruct (start_frame env (poolConfig self (iterateTests suite))
              (announced suite w)) as (sres & sevs & Heq & Hsev & Hsres).
  rewrite Hstart in Heq. injection Heq as <- ->.
  destruct (start_events_silent _ Hsev) as (Hsj & Hsb & _).
  destruct (start_events_no_exit _ Hsev) as [Hse _].
  simpl. unfold exitRequests in *.
  rewrite !joins_app, !begun_app, !omap_app, Hsj, Hsb, Hse, !app_nil_r.
  change (joins [announcement suite]) with 0.
  change (begun [announcement suite]) with (@nil nat).
  rewrite ?app_nil_r. repeat split; auto; lia.
Qed.

(** An exception of [_makeResult] in the second pass leaves the loop: the pool
    is joined once, and [_run] raises the exception again. *)
Example loop_error_joined_then_raised :
  let out := _run brokenReporter demoRunner 10 demoSuite true world0 in
  out.1 = Raise (Exception "no reporter")
  ∧ joins (trace out.2) = 1
  ∧ begun (trace out.2) = [0; 1]
  ∧ last (trace out.2) = Some EvReactorStop.
Proof. vm_compute. done. Qed.


(** With the flag set the three passes of the sample session have their three
    lines, and the counter of the loop stands at three. *)
Example three_passes_three_lines :
  let out := runAsync demoEnv demoRunner 10 demoSuite true world0 in
  counter out.2 = 3
  ∧ written (trace out.2)
      = [announcement demoSuite; passLine 0; passLine 1; passLine 2].
Proof. vm_compute. done. Qed.

(** Without [untilFailure] only the announcement is written. *)
Example single_pass_writes_no_progress_line :
  let out := runAsync demoEnv demoRunner 10 demoSuite false world0 in
  written (trace out.2) = [announcement demoSuite]
  ∧ begun (trace out.2) = [0].
Proof. vm_compute. done. Qed.

Lemma startup_failure_skips_join_witness :
  let w1 := mkWorld [announcement demoSuite; EvClaimDirectory] newReporter 0 in
  let e := Exception "no usable directory" in
  start lockedOut (poolConfig demoRunner (iterateTests demoSuite))
    (announced demoSuite world0) = (Raise e, w1)
  ∧ runAsync lockedOut demoRunner 10 demoSuite true world0 = (Raise e, w1)
  ∧ joins (trace w1) = joins (trace world0)
  ∧ begun (trace w1) = begun (trace world0)
  ∧ exitRequests (trace w1) = exitRequests (trace world0)
  ∧ (claimDirectory lockedOut = Some e ∨ openLog lockedOut = Some e
     ∨ ∃ i, i < min (length (iterateTests demoSuite)) (_maxWorkers demoRunner)
            ∧ spawnProcess lockedOut i = Some e).
Proof.
  intros w1 e.
  assert (Hstart :
    start lockedOut (poolConfig demoRunner (iterateTests demoSuite))
      (announced demoSuite world0) = (Raise e, w1)) by reflexivity.
  split; [exact Hstart|].
  apply (startup_failure_skips_join lockedOut demoRunner 10 demoSuite true
           world0 w1 e Hstart).
Defined.

(** A spawn failure of the second worker: the first process was spawned, the
    directory stays claimed, and nothing is joined. *)
Example spawn_failure_not_joined :
  let out := runAsync spawnFails demoRunner 10 demoSuite false world0 in
  out.1 = Raise (Exception "fork failed")
  ∧ trace out.2 = [announcement demoSuite; EvClaimDirectory; EvOpenLog;
                   EvSpawn 0; EvSpawn 1]
  ∧ joins (trace out.2) = 0.
Proof. vm_compute. done. Qed.

(** * The size of the pool *)

Lemma empty_pass (env : Env) (pool : StartedWorkerPool) (n : nat) :
  fanoutFault env n = None ->
  passResult env pool [] n = mkReporter [] 1
  ∧ dispatched (passFan env pool [] n) = [].
Proof.
  intros Hfault.
  destruct (parallel_inv (workerRun env n) (pick env n) []
              (length (ampWorkers pool)) newReporter) as [Hinv Hall].
  fold (passFan env pool [] n) in Hinv, Hall.
  pose proof (inv_cursor _ _ _ _ _ Hinv) as Hc.
  apply app_eq_nil in Hc as [Hd _]. apply fmap_nil_inv in Hd.
  pose proof (finished_completed _ _ _ _ _ Hinv Hall) as Hp.
  rewrite Hd in Hp. apply Permutation_nil_r in Hp.
  pose proof (inv_entries _ _ _ _ _ Hinv) as He. rewrite Hp in He.
  pose proof (inv_done _ _ _ _ _ Hinv) as Hdone.
  split; [|done]. unfold passResult. rewrite Hfault. unfold done.
  by rewrite He, Hdone.
Qed.

(** C2: the pool is configured with [min(len(testCases), maxWorkers)]
    workers, and when nothing fails during startup exactly that many processes
    are spawned, one per worker index.  For an empty suite the count is zero
    and no process is spawned; a pass still completes, with a reporter that is
    empty, successful and finalized once, and without [untilFailure] the
    session returns that reporter after joining the pool. *)
Theorem effective_worker_count (env : Env) (self : DistTrialRunner)
    (suite : TestSuite) (w : World) :
  claimDirectory env = None ->
  openLog env = None ->
  (∀ i, i < min (length (iterateTests suite)) (_maxWorkers self) ->
        spawnProcess env i = None) ->
  let W := min (length (iterateTests suite)) (_maxWorkers self) in
  numWorkers (poolConfig self (iterateTests suite)) = W
  ∧ start env (poolConfig self (iterateTests suite)) (announced suite w)
      = (Ok (mkPool true true (seq 0 W) (seq 0 W)),
         extend (announced suite w)
           ([EvClaimDirectory; EvOpenLog] ++ map EvSpawn (seq 0 W)))
  ∧ (iterateTests suite = [] ->
       W = 0
       ∧ (∀ untilFailure n w0,
            makeResult env n = None -> fanoutFault env n = None ->
            let out := runTests env untilFailure (mkPool true true [] []) [] n w0 in
            out.1 = Ok (mkReporter [] 1)
            ∧ trace out.2
                = trace w0 ++ passHead untilFailure n ++ [EvDone (mkReporter [] 1)])
       ∧ (makeResult env 0 = None -> fanoutFault env 0 = None ->
          ∀ fuel,
            let out := runAsync env self (S fuel) suite false w in
            out.1 = Ok (mkReporter [] 1)
            ∧ wasSuccessful (mkReporter [] 1) = true
            ∧ trace out.2
                = trace w ++ [announcement suite; EvClaimDirectory; EvOpenLog;
                              EvMakeResult 0; EvDone (mkReporter [] 1);
                              EvJoin; EvClearWorkers; EvCloseLog; EvUnlock])).
Proof.
  intros Hclaim Hlog Hspawn W.
  pose proof (start_ok env (poolConfig self (iterateTests suite))
                (announced suite w) Hclaim Hlog Hspawn) as Hstart.
  split; [done|]. split; [exact Hstart|].
  intros Hempty.
  assert (HW : W = 0) by (subst W; by rewrite Hempty).
  split; [done|]. split.
  - intros untilFailure n w0 Hmk Hfault. cbv zeta.
    rewrite runTests_eq, Hmk. simpl. unfold passEvents.
    destruct (empty_pass env (mkPool true true [] []) n Hfault) as [-> ->].
    done.
  - intros Hmk Hfault fuel. cbv zeta.
    rewrite runAsync_eq, Hstart. simpl numWorkers. fold W. rewrite HW, Hempty.
    unfold iterations, bind, countingCalls. simpl iterateWhile.
    unfold bind. rewrite runTests_eq. simpl counter. rewrite Hmk.
    destruct (empty_pass env (mkPool true true [] []) 0 Hfault) as [Hr Hd].
    unfold passEvents, ret. rewrite Hr, Hd. simpl.
    split; [done|]. split; [done|]. by rewrite <- !app_assoc.
Qed.

Lemma effective_worker_count_witness :
  claimDirectory quietEnv = None
  ∧ openLog quietEnv = None
  ∧ (∀ i, i < min (length (iterateTests emptySuite)) (_maxWorkers demoRunner) ->
          spawnProcess quietEnv i = None)
  ∧ let out := runAsync quietEnv demoRunner 1 emptySuite false world0 in
    out.1 = Ok (mkReporter [] 1)
    ∧ spawned (trace out.2) = []
    ∧ joins (trace out.2) = 1.
Proof.
  assert (Hspawn :
    ∀ i, i < min (length (iterateTests emptySuite)) (_maxWorkers demoRunner) ->
         spawnProcess quietEnv i = None) by reflexivity.
  split; [reflexivity|]. split; [reflexivity|]. split; [exact Hspawn|].
  destruct (effective_worker_count quietEnv demoRunner emptySuite world0
              eq_refl eq_refl Hspawn) as (_ & _ & Hempty).
  destruct (Hempty eq_refl) as (_ & _ & Hrun).
  destruct (Hrun eq_refl eq_refl 0) as (Hres & _ & Htrace).
  split; [exact Hres|]. rewrite Htrace. split; reflexivity.
Defined.

(** * More on the fan-out *)

Lemma weights_replicate (W : nat) : weights (replicate W AtLoopHead) = W.
Proof. unfold weights. induction W; simpl; auto. Qed.

Lemma weights_zero (ds : list Driver) :
  weights ds = 0 <-> forallb isFinished ds = true.
Proof.
  unfold weights. induction ds as [|d ds IH]; simpl; [done|].
  destruct d; simpl; rewrite <- ?IH; split; intros; try lia; try done.
Qed.

Section FanoutMore.

Variable workerRun : nat -> TestCase -> RunOutcome.

Local Abbreviation step := (_driveWorker workerRun).

Lemma nsteps_measure (n : nat) (st st' : FanState) :
  nsteps (fanStep workerRun) n st st' -> n + measure st' = measure st.
Proof.
  induction 1 as [|n x y z [w Hs] _ IH]; [done|].
  apply step_measure in Hs. lia.
Qed.

Lemma settled_stays (pick : FanState -> nat) (fuel : nat) (st : FanState) :
  allFinished st = true -> runFan workerRun pick fuel st = st.
Proof.
  intros H. destruct fuel; [done|]. simpl.
  by rewrite (proj2 (schedule_None workerRun pick st) H).
Qed.

(** X1: every interleaving of the drivers over [N] cases with [W] drivers is
    bounded: after [n] steps the measure left is [2N + W - n], so no
    interleaving has more than [2N + W] steps; a non-empty pool has finished
    exactly when [2N + W] steps have been made. *)
Theorem fanout_takes_2N_plus_W_steps (testCases : list TestCase) (W : nat)
    (r0 : Reporter) (n : nat) (st : FanState) :
  nsteps (fanStep workerRun) n (startFan testCases W r0) st ->
  n + measure st = 2 * length testCases + W
  ∧ n <= 2 * length testCases + W
  ∧ (n = 2 * length testCases + W -> allFinished st = true)
  ∧ (1 <= W -> allFinished st = true -> n = 2 * length testCases + W).
Proof.
  intros Hn. pose proof (nsteps_measure _ _ _ Hn) as Hm.
  assert (H0 : measure (startFan testCases W r0) = 2 * length testCases + W).
  { unfold measure. simpl. rewrite weights_replicate. lia. }
  rewrite H0 in Hm. split; [done|]. split; [lia|]. split.
  - intros ->. apply weights_zero. unfold measure in Hm. lia.
  - intros HW Hall.
    pose proof (steps_inv _ _ _ _ _ _ (rtc_nsteps_2 _ _ _ Hn)
                  (startFan_inv workerRun testCases r0 W)) as Hinv.
    pose proof (finished_exhausted _ _ _ _ _ Hinv Hall HW) as Hc.
    apply weights_zero in Hall. unfold measure in Hm. rewrite Hc, Hall in Hm.
    simpl in Hm. lia.
Qed.

Lemma step_sequential (w : nat) (st st' : FanState) :
  sequentialPerWorker st -> step w st = Some st' -> sequentialPerWorker st'.
Proof.
  unfold sequentialPerWorker, callsOf, _driveWorker. intros Hseq.
  destruct (drivers st !! w) as [d|] eqn:Hl; [|done].
  pose proof (lookup_lt_Some _ _ _ Hl) as Hlt.
  destruct d as [|c|]; [destruct (cursor st) as [|c rest]|..];
    intros ? v; simplify_eq/=; specialize (Hseq v);
    destruct (decide (w = v)) as [->|Hne];
    rewrite ?list_lookup_insert_eq, ?list_lookup_insert_ne by done;
    rewrite ?Hl in Hseq; rewrite ?filter_app, ?filter_cons, ?filter_nil; simpl;
    try case_decide; try done; simplify_eq/=;
    rewrite ?Hseq, ?app_nil_r, <- ?app_assoc; done.
Qed.

Lemma steps_sequential (st st' : FanState) :
  rtc (fanStep workerRun) st st' ->
  sequentialPerWorker st -> sequentialPerWorker st'.
Proof.
  induction 1 as [|x y z [w Hs] _ IH]; [done|].
  intros Hx. apply IH. by eapply step_sequential.
Qed.

Lemma startFan_sequential (testCases : list TestCase) (W : nat) (r0 : Reporter) :
  sequentialPerWorker (startFan testCases W r0).
Proof.
  intros w. simpl. unfold callsOf. rewrite filter_nil. simpl.
  destruct (replicate W AtLoopHead !! w) as [d|] eqn:Hl; [|done].
  apply lookup_replicate in Hl as [-> _]. done.
Qed.

End FanoutMore.

Lemma fanout_takes_2N_plus_W_steps_witness :
  nsteps (fanStep quietRun) 2 (startFan [4; 5] 1 newReporter)
    (mkFan [5] [AtLoopHead] newReporter [(0, 4)] [(0, 4)])
  ∧ 2 + measure (mkFan [5] [AtLoopHead] newReporter [(0, 4)] [(0, 4)])
      = 2 * length [4; 5] + 1.
Proof.
  assert (H : nsteps (fanStep quietRun) 2 (startFan [4; 5] 1 newReporter)
                (mkFan [5] [AtLoopHead] newReporter [(0, 4)] [(0, 4)])).
  { eapply nsteps_l; [by exists 0|]. eapply nsteps_l; [by exists 0|].
    apply nsteps_O. }
  split; [exact H|].
  apply (fanout_takes_2N_plus_W_steps quietRun [4; 5] 1 newReporter 2 _ H).
Defined.

(** X2: in every state the fan-out reaches, the calls a worker has been given
    are the calls it has completed, in the same order, followed by at most
    one call still awaited: the calls of one worker never overlap. *)
Theorem worker_calls_never_overlap (workerRun : nat -> TestCase -> RunOutcome)
    (testCases : list TestCase) (W : nat) (r0 : Reporter) (st : FanState) :
  rtc (fanStep workerRun) (startFan testCases W r0) st ->
  ∀ w, ∃ pending,
    callsOf w (dispatched st) = callsOf w (completed st) ++ pending
    ∧ length pending <= 1
    ∧ (pending = [] <-> ∀ c, drivers st !! w ≠ Some (Awaiting c)).
Proof.
  intros Hst w.
  pose proof (steps_sequential _ _ _ Hst (startFan_sequential testCases W r0) w)
    as Hw.
  destruct (drivers st !! w) as [[|c|]|] eqn:Hl;
    eexists; (split; [exact Hw|]); simpl; (split; [lia|]);
    split; try done; intros H; by specialize (H c).
Qed.

Lemma worker_calls_never_overlap_witness :
  let st := mkFan [6] [Awaiting 5; AtLoopHead] newReporter
              [(0, 4); (0, 5)] [(0, 4)] in
  rtc (fanStep quietRun) (startFan [4; 5; 6] 2 newReporter) st
  ∧ ∃ pending,
      callsOf 0 (dispatched st) = callsOf 0 (completed st) ++ pending
      ∧ length pending <= 1
      ∧ (pending = [] <-> ∀ c, drivers st !! 0 ≠ Some (Awaiting c)).
Proof.
  intros st.
  assert (H : rtc (fanStep quietRun) (startFan [4; 5; 6] 2 newReporter) st).
  { eapply rtc_l; [by exists 0|]. eapply rtc_l; [by exists 0|].
    eapply rtc_l; [by exists 0|]. apply rtc_refl. }
  split; [exact H|].
  apply (worker_calls_never_overlap quietRun [4; 5; 6] 2 newReporter st H 0).
Defined.

(** X3: a driver returns only once the shared iterator is exhausted: while a
    case is left, none of the drivers of the pool has returned. *)
Theorem no_driver_returns_while_cases_remain
    (workerRun : nat -> TestCase -> RunOutcome)
    (testCases : list TestCase) (W : nat) (r0 : Reporter) (st : FanState) :
  rtc (fanStep workerRun) (startFan testCases W r0) st ->
  cursor st ≠ [] ->
  length (drivers st) = W ∧ Forall (λ d, d ≠ Finished) (drivers st).
Proof.
  intros Hst Hc.
  pose proof (steps_inv _ _ _ _ _ _ Hst (startFan_inv workerRun testCases r0 W))
    as Hinv.
  split; [apply (inv_width _ _ _ _ _ Hinv)|].
  apply Forall_forall. intros d Hd ->.
  by apply Hc, (inv_exhausted _ _ _ _ _ Hinv).
Qed.

Lemma no_driver_returns_while_cases_remain_witness :
  let st := mkFan [6] [Awaiting 5; AtLoopHead] newReporter
              [(0, 4); (0, 5)] [(0, 4)] in
  rtc (fanStep quietRun) (startFan [4; 5; 6] 2 newReporter) st
  ∧ cursor st ≠ []
  ∧ length (drivers st) = 2 ∧ Forall (λ d, d ≠ Finished) (drivers st).
Proof.
  intros st.
  assert (H : rtc (fanStep quietRun) (startFan [4; 5; 6] 2 newReporter) st).
  { eapply rtc_l; [by exists 0|]. eapply rtc_l; [by exists 0|].
    eapply rtc_l; [by exists 0|]. apply rtc_refl. }
  assert (Hc : cursor st ≠ []) by done.
  split; [exact H|]. split; [exact Hc|].
  apply (no_driver_returns_while_cases_remain quietRun [4; 5; 6] 2 newReporter
           st H Hc).
Defined.

Lemma driveAlone_entries (workerRun : nat -> TestCase -> RunOutcome) (w : nat)
    (testCases : list TestCase) (r : Reporter) :
  entries (driveAlone workerRun w testCases r)
    = entries r ++ flat_map (taskEntries workerRun) (map (pair w) testCases)
  ∧ doneCalls (driveAlone workerRun w testCases r) = doneCalls r.
Proof.
  unfold driveAlone. revert r.
  induction testCases as [|c cs IH]; intros r; simpl.
  - by rewrite app_nil_r.
  - destruct (IH (task workerRun w c r)) as [-> ->].
    by rewrite task_entries, task_doneCalls, <- app_assoc.
Qed.

Lemma reporter_eq (r r' : Reporter) :
  entries r = entries r' -> doneCalls r = doneCalls r' -> r = r'.
Proof. destruct r, r'; simpl; congruence. Qed.

Lemma all_owned_by_zero (l : list (nat * TestCase)) :
  Forall (λ p, p.1 < 1) l -> l = map (pair 0) l.*2 ∧ callsOf 0 l = l.
Proof.
  unfold callsOf. induction 1 as [|[w c] l Hw _ [IH1 IH2]]; [done|].
  simpl in *. assert (w = 0) as -> by lia.
  rewrite filter_cons. simpl. rewrite IH2.
  split; [f_equal; exact IH1|done].
Qed.

(** X4: a pool of one worker runs the suite sequentially, whatever the
    scheduler does: the cases are called in suite order on worker 0, the calls
    complete in that order, and the reporter ends as the loop of
    [_driveWorker] read as straight-line code leaves it. *)
Theorem single_worker_is_sequential
    (workerRun : nat -> TestCase -> RunOutcome) (pick : FanState -> nat)
    (testCases : list TestCase) (r0 : Reporter) :
  let st := parallel workerRun pick (startFan testCases 1 r0) in
  dispatched st = map (pair 0) testCases
  ∧ completed st = map (pair 0) testCases
  ∧ result st = driveAlone workerRun 0 testCases r0.
Proof.
  intros st.
  destruct (parallel_inv workerRun pick testCases 1 r0) as [Hinv Hall].
  fold st in Hinv, Hall.
  pose proof (inv_cursor _ _ _ _ _ Hinv) as Hc.
  rewrite (finished_exhausted _ _ _ _ _ Hinv Hall (le_n 1)), app_nil_r in Hc.
  destruct (all_owned_by_zero _ (inv_owner _ _ _ _ _ Hinv)) as [Hd Hown].
  rewrite Hc in Hd.
  assert (Hst : rtc (fanStep workerRun) (startFan testCases 1 r0) st)
    by apply runFan_steps.
  pose proof (steps_sequential _ _ _ Hst (startFan_sequential testCases 1 r0) 0)
    as Hseq.
  assert (Hfin : drivers st !! 0 = Some Finished).
  { pose proof (inv_width _ _ _ _ _ Hinv) as Hlen.
    unfold allFinished in Hall.
    destruct (drivers st) as [|d [|d' ds]]; simplify_eq/=.
    apply andb_prop in Hall as [Hd0 _]. by destruct d. }
  rewrite Hfin, app_nil_r, Hown in Hseq.
  assert (Hcomp : completed st = dispatched st).
  { pose proof (finished_completed _ _ _ _ _ Hinv Hall) as Hp.
    assert (Forall (λ p, p.1 < 1) (completed st)) as Hcown.
    { rewrite Hp. apply (inv_owner _ _ _ _ _ Hinv). }
    destruct (all_owned_by_zero _ Hcown) as [_ Hcown']. congruence. }
  split; [done|]. split; [congruence|].
  destruct (driveAlone_entries workerRun 0 testCases r0) as [He Hdone].
  apply reporter_eq.
  - rewrite He, (inv_entries _ _ _ _ _ Hinv), Hcomp, Hd. done.
  - rewrite Hdone. apply (inv_done _ _ _ _ _ Hinv).
Qed.

Lemma single_worker_is_sequential_witness :
  let st := parallel flakyRun (λ _, 7) (startFan [4; 5; 6] 1 newReporter) in
  dispatched st = [(0, 4); (0, 5); (0, 6)]
  ∧ entries (result st)
      = [mkEntry KFailure (Case 5) (Exception "connection lost")].
Proof.
  destruct (single_worker_is_sequential flakyRun (λ _, 7) [4; 5; 6] newReporter)
    as (Hd & _ & Hr).
  split; [exact Hd|]. rewrite Hr. reflexivity.
Defined.

Lemma taskEntries_by_case (workerRun : nat -> TestCase -> RunOutcome)
    (l : list (nat * TestCase)) :
  (∀ w w' c, workerRun w c = workerRun w' c) ->
  flat_map (taskEntries workerRun) l
    = flat_map (λ c, taskEntries workerRun (0, c)) l.*2.
Proof.
  intros Hsame. induction l as [|[w c] l IH]; [done|]. simpl. rewrite IH.
  f_equal. unfold taskEntries. simpl. by rewrite (Hsame w 0 c).
Qed.

Lemma wasSuccessful_perm (r r' : Reporter) :
  entries r ≡ₚ entries r' -> wasSuccessful r = wasSuccessful r'.
Proof.
  unfold wasSuccessful. intros Hp.
  destruct (entries r) as [|x l], (entries r') as [|x' l']; try done.
  - by apply Permutation_nil_cons in Hp.
  - symmetry in Hp. by apply Permutation_nil_cons in Hp.
Qed.

(** X5: when the outcome of running a case does not depend on the worker that
    runs it, the reporter of a finished fan-out holds the same entries under
    every schedule, up to their order: what it started with and what each
    case of the suite contributes; so the verdict [wasSuccessful] of the pass
    does not depend on the schedule. *)
Theorem verdict_independent_of_schedule
    (workerRun : nat -> TestCase -> RunOutcome)
    (testCases : list TestCase) (W : nat) (r0 : Reporter) (st st' : FanState) :
  (∀ w w' c, workerRun w c = workerRun w' c) ->
  1 <= W ->
  rtc (fanStep workerRun) (startFan testCases W r0) st ->
  allFinished st = true ->
  rtc (fanStep workerRun) (startFan testCases W r0) st' ->
  allFinished st' = true ->
  entries (result st)
    ≡ₚ entries r0 ++ flat_map (λ c, taskEntries workerRun (0, c)) testCases
  ∧ entries (result st) ≡ₚ entries (result st')
  ∧ wasSuccessful (result st) = wasSuccessful (result st').
Proof.
  intros Hsame HW Hst Hall Hst' Hall'.
  assert (Hone : ∀ s, rtc (fanStep workerRun) (startFan testCases W r0) s ->
            allFinished s = true ->
            entries (result s)
              ≡ₚ entries r0
                   ++ flat_map (λ c, taskEntries workerRun (0, c)) testCases).
  { intros s Hs Hfin.
    pose proof (steps_inv _ _ _ _ _ _ Hs (startFan_inv workerRun testCases r0 W))
      as Hinv.
    rewrite (inv_entries _ _ _ _ _ Hinv), (taskEntries_by_case _ _ Hsame).
    apply Permutation_app_head, Permutation_flat_map.
    pose proof (inv_cursor _ _ _ _ _ Hinv) as Hc.
    rewrite (finished_exhausted _ _ _ _ _ Hinv Hfin HW), app_nil_r in Hc.
    rewrite <- Hc. apply fmap_Permutation.
    by eapply finished_completed. }
  assert (Hboth : entries (result st) ≡ₚ entries (result st')).
  { rewrite (Hone st Hst Hall). symmetry. by apply Hone. }
  split; [by apply Hone|]. split; [done|]. by apply wasSuccessful_perm.
Qed.

Lemma verdict_independent_of_schedule_witness :
  let st := parallel flakyRun (λ _, 0) (startFan [4; 5; 6] 2 newReporter) in
  let st' := parallel flakyRun (λ _, 1) (startFan [4; 5; 6] 2 newReporter) in
  (∀ w w' c, flakyRun w c = flakyRun w' c)
  ∧ 1 <= 2
  ∧ entries (result st) ≡ₚ entries (result st')
  ∧ wasSuccessful (result st) = wasSuccessful (result st').
Proof.
  intros st st'.
  assert (Hsame : ∀ w w' c, flakyRun w c = flakyRun w' c) by reflexivity.
  assert (HW : 1 <= 2) by lia.
  split; [exact Hsame|]. split; [exact HW|].
  destruct (parallel_inv flakyRun (λ _, 0) [4; 5; 6] 2 newReporter) as [_ Hall].
  destruct (parallel_inv flakyRun (λ _, 1) [4; 5; 6] 2 newReporter) as [_ Hall'].
  destruct (verdict_independent_of_schedule flakyRun [4; 5; 6] 2 newReporter
              st st' Hsame HW (runFan_steps _ _ _ _) Hall (runFan_steps _ _ _ _)
              Hall') as (_ & Hp & Hv).
  split; [exact Hp|exact Hv].
Defined.

(** X6: a pool without workers runs nothing: [runTests] on it dispatches no
    case of the suite, however many there are, and returns a reporter that is
    empty, finalized and successful, so that a run until failure goes on. *)
Theorem pool_without_workers_reports_success (env : Env) (untilFailure : bool)
    (pool : StartedWorkerPool) (testCases : list TestCase) (n : nat) (w : World) :
  ampWorkers pool = [] ->
  makeResult env n = None ->
  fanoutFault env n = None ->
  runTests env untilFailure pool testCases n w
    = (Ok (mkReporter [] 1),
       mkWorld (trace w ++ passHead untilFailure n ++ [EvDone (mkReporter [] 1)])
         (mkReporter [] 1) (counter w))
  ∧ ranCases (passHead untilFailure n ++ [EvDone (mkReporter [] 1)]) = []
  ∧ wasSuccessful (mkReporter [] 1) = true
  ∧ shouldContinue true (mkReporter [] 1) = true.
Proof.
  intros Hnone Hmk Hfault. rewrite runTests_eq, Hmk.
  unfold passEvents, passResult, passFan. rewrite Hnone, Hfault. simpl length.
  unfold parallel. rewrite settled_stays by done. simpl.
  split; [done|]. by destruct untilFailure.
Qed.

Lemma pool_without_workers_reports_success_witness :
  ampWorkers idlePool = []
  ∧ makeResult flakyEnv 0 = None
  ∧ fanoutFault flakyEnv 0 = None
  ∧ runTests flakyEnv false idlePool [4; 5; 6] 0 world0
    = (Ok (mkReporter [] 1),
       mkWorld [EvMakeResult 0; EvDone (mkReporter [] 1)] (mkReporter [] 1) 0).
Proof.
  split; [reflexivity|]. split; [reflexivity|]. split; [reflexivity|].
  destruct (pool_without_workers_reports_success flakyEnv false idlePool
              [4; 5; 6] 0 world0 eq_refl eq_refl eq_refl) as [H _].
  exact H.
Defined.

(** * More on the session *)

Lemma unlocks_app (a b : list Event) : unlocks (a ++ b) = unlocks a + unlocks b.
Proof. unfold unlocks. by rewrite List.filter_app, length_app. Qed.

Lemma reactorStops_app (a b : list Event) :
  reactorStops (a ++ b) = reactorStops a + reactorStops b.
Proof. unfold reactorStops. by rewrite List.filter_app, length_app. Qed.

Lemma spawned_spawns (l : list nat) :
  spawned (map EvSpawn l) = l ∧ exitRequests (map EvSpawn l) = []
  ∧ unlocks (map EvSpawn l) = 0 ∧ reactorStops (map EvSpawn l) = 0.
Proof.
  unfold spawned, exitRequests, unlocks, reactorStops.
  induction l as [|i l (? & ? & ? & ?)]; [done|]. simpl.
  repeat split; auto. by f_equal.
Qed.

Lemma spawns_are_start_events (l : list nat) :
  forallb isStartEvent (map EvSpawn l) = true.
Proof. induction l; simpl; auto. Qed.

Lemma pass_events_quiet (evs : list Event) :
  forallb isPassEvent evs = true ->
  spawned evs = [] ∧ exitRequests evs = [] ∧ unlocks evs = 0
  ∧ reactorStops evs = 0.
Proof.
  induction evs as [|ev evs IH]; [done|]. simpl.
  intros [Hev Hevs]%andb_prop. destruct (IH Hevs) as (? & ? & ? & ?).
  unfold spawned, exitRequests, unlocks, reactorStops in *.
  destruct ev; simplify_eq/=; auto.
Qed.

Lemma exits_quiet (env : Env) (ws : list nat) :
  let evs := flat_map (exitAttempt env) ws in
  spawned evs = [] ∧ unlocks evs = 0 ∧ reactorStops evs = 0.
Proof.
  induction ws as [|i ws (? & ? & ?)]; [done|]. simpl.
  unfold spawned, unlocks, reactorStops, exitAttempt in *.
  destruct (workerExit env i); simpl; auto.
Qed.

Section SessionMore.

Variable env : Env.
Variable self : DistTrialRunner.

Lemma launch_fails_at (l1 l2 : list nat) (i : nat) (e : Exn) (w : World) :
  (∀ j, j ∈ l1 -> spawnProcess env j = None) ->
  spawnProcess env i = Some e ->
  _launchWorkerProcesses env (l1 ++ i :: l2) w
    = (Raise e, extend w (map EvSpawn (l1 ++ [i]))).
Proof.
  unfold _launchWorkerProcesses, extend. revert w.
  induction l1 as [|j l1 IH]; intros w Hok Hi; simpl.
  - unfold bind. by rewrite call_eq, Hi.
  - unfold bind at 1. rewrite call_eq, (Hok j) by left.
    rewrite IH; [|intros; apply Hok; by right|done]. simpl.
    by rewrite <- app_assoc.
Qed.

(** The shape of a whole session whose pool has started. *)
Lemma runAsync_started (fuel : nat) (suite : TestSuite) (untilFailure : bool)
    (w : World) :
  let W := min (length (iterateTests suite)) (_maxWorkers self) in
  let pool := mkPool true true (seq 0 W) (seq 0 W) in
  claimDirectory env = None -> openLog env = None ->
  (∀ i, i < W -> spawnProcess env i = None) ->
  ∃ res levs cur k,
    LoopShape env untilFailure pool (iterateTests suite) 0 fuel res levs
    ∧ runAsync env self fuel suite untilFailure w
      = (res,
         mkWorld
           (trace w ++ [announcement suite; EvClaimDirectory; EvOpenLog]
              ++ map EvSpawn (seq 0 W) ++ levs
              ++ match res with
                 | Diverge => []
                 | _ => joinEvents env pool
                 end) cur k).
Proof.
  intros W pool Hclaim Hlog Hspawn. rewrite runAsync_eq.
  rewrite (start_ok env (poolConfig self (iterateTests suite))
             (announced suite w) Hclaim Hlog Hspawn).
  simpl numWorkers. fold W. fold pool.
  destruct (iterations_shape env untilFailure pool (iterateTests suite) fuel
              (mkWorld (trace (announced suite w) ++
                          [EvClaimDirectory; EvOpenLog] ++ map EvSpawn (seq 0 W))
                 (current (announced suite w)) (counter (announced suite w))))
    as (res & levs & cur & k & -> & Hshape).
  exists res, levs, cur, k. split; [done|].
  destruct res as [r|e|]; unfold extend; simpl; f_equal; f_equal;
    rewrite ?app_nil_r, <- ?app_assoc; simpl; by rewrite <- ?app_assoc.
Qed.

End SessionMore.

(** X7: when the spawn of worker [i] is the first to fail, [runAsync] raises
    its exception at once: the processes [0..i] have been handed to the
    spawner, no later one is tried, no pass is begun, the workers already
    spawned are not asked to exit, and the directory lock claimed by [start]
    is not released. *)
Theorem spawn_failure_stops_startup_and_keeps_the_lock (env : Env)
    (self : DistTrialRunner) (fuel : nat) (suite : TestSuite)
    (untilFailure : bool) (w : World) (i : nat) (e : Exn) :
  claimDirectory env = None ->
  openLog env = None ->
  i < min (length (iterateTests suite)) (_maxWorkers self) ->
  spawnProcess env i = Some e ->
  (∀ j, j < i -> spawnProcess env j = None) ->
  let evs := [announcement suite; EvClaimDirectory; EvOpenLog]
               ++ map EvSpawn (seq 0 (S i)) in
  runAsync env self fuel suite untilFailure w = (Raise e, extend w evs)
  ∧ spawned evs = seq 0 (S i)
  ∧ begun evs = []
  ∧ exitRequests evs = []
  ∧ joins evs = 0
  ∧ unlocks evs = 0.
Proof.
  intros Hclaim Hlog Hi Hfail Hbefore evs. split.
  - rewrite runAsync_eq. unfold start. rewrite createLocalWorkers_seq.
    unfold bind at 1. rewrite call_eq, Hclaim.
    unfold bind at 1. rewrite call_eq, Hlog.
    unfold bind. simpl numWorkers.
    set (W := min _ _) in *.
    assert (Hsplit : seq 0 W = seq 0 i ++ i :: seq (S i) (W - S i)).
    { replace W with (i + S (W - S i)) at 1 by lia.
      by rewrite seq_app. }
    rewrite Hsplit, (launch_fails_at env (seq 0 i) _ i e); [| |done].
    + unfold extend, evs. simpl. rewrite <- !app_assoc. simpl.
      replace (seq 0 i ++ [i]) with (seq 0 (S i)) by (by rewrite seq_S).
      done.
    + intros j Hj%elem_of_seq. apply Hbefore. lia.
  - unfold evs.
    destruct (spawned_spawns (seq 0 (S i))) as (Hs & He & Hu & _).
    destruct (start_events_silent _ (spawns_are_start_events (seq 0 (S i))))
      as (Hj & Hb & _).
    rewrite joins_app, begun_app, unlocks_app, Hj, Hb, Hu.
    unfold spawned, exitRequests in *. rewrite !omap_app, Hs, He. done.
Qed.

Lemma spawn_failure_stops_startup_and_keeps_the_lock_witness :
  claimDirectory spawnFails = None
  ∧ openLog spawnFails = None
  ∧ 1 < min (length (iterateTests demoSuite)) (_maxWorkers demoRunner)
  ∧ spawnProcess spawnFails 1 = Some (Exception "fork failed")
  ∧ (∀ j, j < 1 -> spawnProcess spawnFails j = None)
  ∧ runAsync spawnFails demoRunner 3 demoSuite false world0
    = (Raise (Exception "fork failed"),
       extend world0 [announcement demoSuite; EvClaimDirectory; EvOpenLog;
                      EvSpawn 0; EvSpawn 1]).
Proof.
  assert (Hi : 1 < min (length (iterateTests demoSuite)) (_maxWorkers demoRunner))
    by (simpl; lia).
  assert (Hb : ∀ j, j < 1 -> spawnProcess spawnFails j = None).
  { intros j Hj. assert (j = 0) as -> by lia. reflexivity. }
  split; [reflexivity|]. split; [reflexivity|]. split; [exact Hi|].
  split; [reflexivity|]. split; [exact Hb|].
  destruct (spawn_failure_stops_startup_and_keeps_the_lock spawnFails demoRunner
              3 demoSuite false world0 1 (Exception "fork failed")
              eq_refl eq_refl Hi eq_refl Hb) as [H _].
  exact H.
Defined.

Lemma last_app_some {A} (a b : list A) (x : A) :
  last b = Some x -> last (a ++ b) = Some x.
Proof.
  destruct b as [|y b _] using rev_ind; [done|].
  rewrite app_assoc, !last_snoc. done.
Qed.

Lemma joinEvents_quiet (env : Env) (pool : StartedWorkerPool) :
  spawned (joinEvents env pool) = [] ∧ unlocks (joinEvents env pool) = 1
  ∧ reactorStops (joinEvents env pool) = 0
  ∧ last (joinEvents env pool) = Some EvUnlock.
Proof.
  destruct (exits_quiet env (workers pool)) as (Hs & Hu & Hr).
  unfold joinEvents.
  change (EvJoin :: ?l) with ([EvJoin] ++ l).
  rewrite unlocks_app, unlocks_app, reactorStops_app, reactorStops_app, Hu, Hr.
  unfold spawned in *. rewrite !omap_app, Hs.
  repeat split; auto.
  change [EvClearWorkers; EvCloseLog; EvUnlock]
    with ([EvClearWorkers; EvCloseLog] ++ [EvUnlock]).
  by rewrite !app_assoc, last_snoc.
Qed.

(** X8: in a session whose pool has started and whose loop has come back,
    with a reporter or with an exception, every worker that was spawned is
    asked to exit exactly once, in the order of spawning, the pool is joined
    once, and the release of the directory lock, the only one, is the last
    thing [runAsync] does. *)
Theorem session_releases_what_it_started (env : Env) (self : DistTrialRunner)
    (fuel : nat) (suite : TestSuite) (untilFailure : bool) (w : World) :
  let W := min (length (iterateTests suite)) (_maxWorkers self) in
  let out := runAsync env self fuel suite untilFailure w in
  claimDirectory env = None ->
  openLog env = None ->
  (∀ i, i < W -> spawnProcess env i = None) ->
  out.1 ≠ Diverge ->
  ∃ evs,
    trace out.2 = trace w ++ evs
    ∧ spawned evs = seq 0 W
    ∧ exitRequests evs = seq 0 W
    ∧ joins evs = 1
    ∧ unlocks evs = 1
    ∧ last evs = Some EvUnlock.
Proof.
  intros W out Hclaim Hlog Hspawn Hout. subst out.
  destruct (runAsync_started env self fuel suite untilFailure w Hclaim Hlog Hspawn)
    as (res & levs & cur & k & Hshape & Heq).
  fold W in Heq, Hshape. rewrite Heq in Hout |- *. simpl in Hout |- *.
  set (pool := mkPool true true (seq 0 W) (seq 0 W)) in *.
  destruct (shape_passes _ _ _ _ _ _ _ _ Hshape) as (_ & _ & Hpe & _).
  destruct (pass_events_quiet _ Hpe) as (Hls & Hle & Hlu & _).
  destruct (pass_events_no_join _ Hpe) as [Hlj _].
  destruct (spawned_spawns (seq 0 W)) as (Hss & Hse & Hsu & _).
  destruct (start_events_silent _ (spawns_are_start_events (seq 0 W)))
    as (Hsj & _).
  destruct (joinEvents_quiet env pool) as (Hjs & Hju & _ & Hjl).
  destruct (joinEvents_observed env pool) as (Hje & Hjj & _).
  assert (Htail : match res with
                  | Diverge => []
                  | _ => joinEvents env pool
                  end = joinEvents env pool) by (by destruct res).
  rewrite Htail.
  set (head := [announcement suite; EvClaimDirectory; EvOpenLog]).
  assert (Hh : joins head = 0 ∧ unlocks head = 0 ∧ spawned head = []
               ∧ exitRequests head = []) by done.
  destruct Hh as (Hhj & Hhu & Hhs & Hhe).
  exists (head ++ map EvSpawn (seq 0 W) ++ levs ++ joinEvents env pool).
  split; [done|].
  assert (Hlast : last (head ++ map EvSpawn (seq 0 W) ++ levs
                          ++ joinEvents env pool) = Some EvUnlock)
    by (by do 3 apply last_app_some).
  rewrite !joins_app, !unlocks_app, Hhj, Hhu, Hlj, Hlu, Hsj, Hsu, Hjj, Hju.
  unfold spawned, exitRequests in *.
  rewrite !omap_app, Hhs, Hhe, Hls, Hle, Hss, Hse, Hjs, Hje. simpl.
  rewrite !app_nil_r. repeat split; auto.
Qed.

Lemma session_releases_what_it_started_witness :
  let out := runAsync demoEnv demoRunner 10 demoSuite true world0 in
  claimDirectory demoEnv = None
  ∧ openLog demoEnv = None
  ∧ (∀ i, i < 2 -> spawnProcess demoEnv i = None)
  ∧ out.1 ≠ Diverge
  ∧ ∃ evs,
      trace out.2 = trace world0 ++ evs
      ∧ spawned evs = seq 0 2
      ∧ exitRequests evs = seq 0 2
      ∧ joins evs = 1
      ∧ unlocks evs = 1
      ∧ last evs = Some EvUnlock.
Proof.
  intros out.
  assert (Hs : ∀ i, i < 2 -> spawnProcess demoEnv i = None) by reflexivity.
  assert (Hout : out.1 ≠ Diverge) by (vm_compute; discriminate).
  split; [reflexivity|]. split; [reflexivity|]. split; [exact Hs|].
  split; [exact Hout|].
  apply (session_releases_what_it_started demoEnv demoRunner 10 demoSuite true
           world0 eq_refl eq_refl Hs Hout).
Defined.

Lemma start_events_no_stop (evs : list Event) :
  forallb isStartEvent evs = true -> reactorStops evs = 0.
Proof.
  induction evs as [|ev evs IH]; [done|]. simpl.
  intros [Hev Hevs]%andb_prop. specialize (IH Hevs).
  unfold reactorStops in *. destruct ev; simplify_eq/=; auto.
Qed.

Lemma runAsync_no_stop (env : Env) (self : DistTrialRunner) (fuel : nat)
    (suite : TestSuite) (untilFailure : bool) (w : World) :
  ∃ evs,
    trace (runAsync env self fuel suite untilFailure w).2 = trace w ++ evs
    ∧ reactorStops evs = 0.
Proof.
  rewrite runAsync_eq.
  destruct (start_frame env (poolConfig self (iterateTests suite))
              (announced suite w)) as (sres & sevs & -> & Hsev & Hsres).
  pose proof (start_events_no_stop _ Hsev) as Hs.
  destruct sres as [pool|e|]; [| |done].
  - destruct (iterations_shape env untilFailure pool (iterateTests suite) fuel
                (mkWorld (trace (announced suite w) ++ sevs)
                   (current (announced suite w)) (counter (announced suite w))))
      as (lres & levs & cur & k & -> & Hshape).
    destruct (shape_passes _ _ _ _ _ _ _ _ Hshape) as (_ & _ & Hpe & _).
    destruct (pass_events_quiet _ Hpe) as (_ & _ & _ & Hl).
    destruct (joinEvents_quiet env pool) as (_ & _ & Hj & _).
    destruct lres as [r|e|]; simpl.
    + exists ([announcement suite] ++ sevs ++ levs ++ joinEvents env pool).
      split; [by rewrite <- !app_assoc|].
      by rewrite !reactorStops_app, Hs, Hl, Hj.
    + exists ([announcement suite] ++ sevs ++ levs ++ joinEvents env pool).
      split; [by rewrite <- !app_assoc|].
      by rewrite !reactorStops_app, Hs, Hl, Hj.
    + exists ([announcement suite] ++ sevs ++ levs).
      split; [by rewrite <- !app_assoc|].
      by rewrite !reactorStops_app, Hs, Hl.
  - exists ([announcement suite] ++ sevs).
    split; [simpl; by rewrite <- !app_assoc|]. by rewrite reactorStops_app, Hs.
Qed.


Section LoopMore.

Variable env : Env.
Variable pool : StartedWorkerPool.
Variable testCases : list TestCase.

Lemma passEvents_ran (untilFailure : bool) (n : nat) :
  1 <= length (ampWorkers pool) ->
  ranCases (passEvents env untilFailure pool testCases n) = testCases
  ∧ ranCases (passHead untilFailure n) = [].
Proof.
  intros HW.
  destruct (parallel_inv (workerRun env n) (pick env n) testCases
              (length (ampWorkers pool)) newReporter) as [Hinv Hall].
  fold (passFan env pool testCases n) in Hinv, Hall.
  pose proof (inv_cursor _ _ _ _ _ Hinv) as Hc.
  rewrite (finished_exhausted _ _ _ _ _ Hinv Hall HW), app_nil_r in Hc.
  destruct (runs_observed n (dispatched (passFan env pool testCases n)))
    as (_ & _ & _ & Hr & _).
  assert (Hhead : ranCases (passHead untilFailure n) = [])
    by (by destruct untilFailure).
  split; [|done]. unfold passEvents, ranCases in *.
  rewrite !omap_app, Hhead, Hr, Hc. simpl. by rewrite app_nil_r.
Qed.

Lemma shape_reporters (untilFailure : bool) (n fuel : nat) (res : Res Reporter)
    (evs : list Event) :
  LoopShape env untilFailure pool testCases n fuel res evs ->
  1 <= length (ampWorkers pool) ->
  finalized evs
    = map (passResult env pool testCases) (seq n (length (finalized evs)))
  ∧ ranCases evs = concat (replicate (length (finalized evs)) testCases).
Proof.
  intros Hshape HW.
  induction Hshape as [n|n fuel e Hmk|n fuel Hmk Hstop
                      |n fuel res evs Hmk Hgo Hrest IH].
  - done.
  - destruct (passHead_observed untilFailure n) as (_ & -> & _).
    destruct (passEvents_ran untilFailure n HW) as [_ ->]. done.
  - destruct (passEvents_observed env untilFailure pool testCases n)
      as (_ & -> & _).
    destruct (passEvents_ran untilFailure n HW) as [-> _]. simpl.
    by rewrite app_nil_r.
  - destruct (passEvents_observed env untilFailure pool testCases n)
      as (_ & Hf & _).
    destruct (passEvents_ran untilFailure n HW) as [Hr _].
    destruct IH as [IHf IHr].
    rewrite finalized_app, Hf. unfold ranCases in *.
    rewrite omap_app, Hr, IHr. simpl. by rewrite <- IHf.
Qed.

Lemma shape_first_failure (n fuel : nat) (res : Res Reporter)
    (evs : list Event) :
  LoopShape env true pool testCases n fuel res evs ->
  ∀ k, k < fuel ->
    (∀ i, i <= k -> makeResult env (n + i) = None) ->
    (∀ i, i < k -> wasSuccessful (passResult env pool testCases (n + i)) = true) ->
    wasSuccessful (passResult env pool testCases (n + k)) = false ->
    res = Ok (passResult env pool testCases (n + k))
    ∧ begun evs = seq n (S k)
    ∧ length (finalized evs) = S k.
Proof.
  induction 1 as [n|n fuel e Hmk|n fuel Hmk Hstop
                 |n fuel res evs Hmk Hgo Hrest IH];
    intros k Hk Hmake Hgood Hbad.
  - lia.
  - specialize (Hmake 0 (Nat.le_0_l k)). rewrite Nat.add_0_r in Hmake. congruence.
  - simpl in Hstop. destruct k as [|k].
    + rewrite Nat.add_0_r.
      destruct (passEvents_observed env true pool testCases n) as (-> & -> & _).
      done.
    + specialize (Hgood 0 (Nat.lt_0_succ k)). rewrite Nat.add_0_r in Hgood.
      congruence.
  - simpl in Hgo. destruct k as [|k].
    + rewrite Nat.add_0_r in Hbad. congruence.
    + destruct (IH k) as (-> & Hb & Hf).
      * lia.
      * intros i Hi.
        replace (S n + i) with (n + S i) by lia. apply Hmake. lia.
      * intros i Hi.
        replace (S n + i) with (n + S i) by lia. apply Hgood. lia.
      * by replace (S n + k) with (n + S k) by lia.
      * destruct (passEvents_observed env true pool testCases n)
          as (Hb' & Hf' & _).
        rewrite begun_app, finalized_app, Hb', Hf', Hb. simpl.
        rewrite Hf. split; [|done]. f_equal. f_equal. lia.
Qed.

Lemma shape_diverges (n fuel : nat) (res : Res Reporter) (evs : list Event) :
  LoopShape env true pool testCases n fuel res evs ->
  (∀ m, makeResult env m = None) ->
  (∀ m, wasSuccessful (passResult env pool testCases m) = true) ->
  res = Diverge.
Proof.
  induction 1 as [n|n fuel e Hmk|n fuel Hmk Hstop
                 |n fuel res evs Hmk Hgo Hrest IH]; intros Hmake Hgood.
  - done.
  - rewrite Hmake in Hmk. done.
  - simpl in Hstop. rewrite Hgood in Hstop. done.
  - by apply IH.
Qed.

End LoopMore.

(** X10: in a run whose passes have no runner fault, the reporters the loop
    finalizes are, in order, those of the passes 0, 1, 2, ...; each holds only
    what its own pass recorded (the entries of the calls completed in that
    pass, which cover the suite) and has been finalized once; and with at
    least one worker every finalized pass has run the whole suite, in suite
    order. *)
Theorem every_pass_runs_the_suite_afresh (env : Env) (fuel : nat)
    (untilFailure : bool) (pool : StartedWorkerPool)
    (testCases : list TestCase) (w : World) :
  1 <= length (ampWorkers pool) ->
  (∀ n, fanoutFault env n = None) ->
  let out := iterations env fuel untilFailure pool testCases w in
  ∃ evs k,
    trace out.2 = trace w ++ evs
    ∧ finalized evs = map (passResult env pool testCases) (seq 0 k)
    ∧ ranCases evs = concat (replicate k testCases)
    ∧ (∀ i,
         entries (passResult env pool testCases i)
           = flat_map (taskEntries (workerRun env i))
               (completed (passFan env pool testCases i))
         ∧ (completed (passFan env pool testCases i)).*2 ≡ₚ testCases
         ∧ doneCalls (passResult env pool testCases i) = 1).
Proof.
  intros HW Hquiet out. subst out.
  destruct (iterations_shape env untilFailure pool testCases fuel w)
    as (res & evs & cur & k & -> & Hshape).
  destruct (shape_reporters _ _ _ _ _ _ _ _ Hshape HW) as [Hf Hr].
  exists evs, (length (finalized evs)). simpl.
  split; [done|]. split; [done|]. split; [done|].
  intros i. split; [|split; [|apply passResult_finalized]].
  - unfold passResult. destruct (passFan_facts env pool testCases i) as [_ He].
    rewrite Hquiet. simpl. by rewrite He.
  - destruct (parallel_inv (workerRun env i) (pick env i) testCases
                (length (ampWorkers pool)) newReporter) as [Hinv Hall].
    fold (passFan env pool testCases i) in Hinv, Hall.
    rewrite (finished_completed _ _ _ _ _ Hinv Hall).
    pose proof (inv_cursor _ _ _ _ _ Hinv) as Hc.
    rewrite (finished_exhausted _ _ _ _ _ Hinv Hall HW), app_nil_r in Hc.
    by rewrite Hc.
Qed.

Lemma every_pass_runs_the_suite_afresh_witness :
  let out := iterations demoEnv 10 true demoPool [4; 5; 6] world0 in
  1 <= length (ampWorkers demoPool)
  ∧ (∀ n, fanoutFault demoEnv n = None)
  ∧ ∃ evs k,
      trace out.2 = trace world0 ++ evs
      ∧ finalized evs = map (passResult demoEnv demoPool [4; 5; 6]) (seq 0 k)
      ∧ ranCases evs = concat (replicate k [4; 5; 6]).
Proof.
  intros out. assert (HW : 1 <= length (ampWorkers demoPool)) by (simpl; lia).
  assert (Hq : ∀ n, fanoutFault demoEnv n = None) by reflexivity.
  split; [exact HW|]. split; [exact Hq|].
  destruct (every_pass_runs_the_suite_afresh demoEnv 10 true demoPool [4; 5; 6]
              world0 HW Hq) as (evs & k & H1 & H2 & H3 & _).
  exists evs, k. split; [exact H1|]. split; [exact H2|exact H3].
Defined.

(** X11: a run until failure stops at the first pass that is not successful:
    when the passes before pass [k] are successful and pass [k] is not, the
    loop returns the reporter of pass [k] after exactly [k + 1] passes. *)
Theorem run_until_failure_stops_at_first_failing_pass (env : Env) (fuel : nat)
    (pool : StartedWorkerPool) (testCases : list TestCase) (w : World) (k : nat) :
  k < fuel ->
  (∀ i, i <= k -> makeResult env i = None) ->
  (∀ i, i < k -> wasSuccessful (passResult env pool testCases i) = true) ->
  wasSuccessful (passResult env pool testCases k) = false ->
  let out := iterations env fuel true pool testCases w in
  out.1 = Ok (passResult env pool testCases k)
  ∧ ∃ evs,
      trace out.2 = trace w ++ evs
      ∧ begun evs = seq 0 (S k)
      ∧ length (finalized evs) = S k.
Proof.
  intros Hk Hmake Hgood Hbad out. subst out.
  destruct (iterations_shape env true pool testCases fuel w)
    as (res & evs & cur & m & -> & Hshape).
  destruct (shape_first_failure _ _ _ _ _ _ _ Hshape k Hk Hmake Hgood Hbad)
    as (-> & Hb & Hf).
  simpl. split; [done|]. by exists evs.
Qed.

Lemma run_until_failure_stops_at_first_failing_pass_witness :
  let out := iterations demoEnv 10 true demoPool [4; 5; 6] world0 in
  2 < 10
  ∧ (∀ i, i <= 2 -> makeResult demoEnv i = None)
  ∧ (∀ i, i < 2 ->
       wasSuccessful (passResult demoEnv demoPool [4; 5; 6] i) = true)
  ∧ wasSuccessful (passResult demoEnv demoPool [4; 5; 6] 2) = false
  ∧ out.1 = Ok (passResult demoEnv demoPool [4; 5; 6] 2)
  ∧ ∃ evs,
      trace out.2 = trace world0 ++ evs
      ∧ begun evs = seq 0 3
      ∧ length (finalized evs) = 3.
Proof.
  intros out.
  assert (Hk : 2 < 10) by lia.
  assert (Hmake : ∀ i, i <= 2 -> makeResult demoEnv i = None) by reflexivity.
  assert (Hgood : ∀ i, i < 2 ->
            wasSuccessful (passResult demoEnv demoPool [4; 5; 6] i) = true).
  { intros i Hi. destruct i as [|[|i]]; [reflexivity|reflexivity|lia]. }
  assert (Hbad : wasSuccessful (passResult demoEnv demoPool [4; 5; 6] 2) = false)
    by reflexivity.
  split; [exact Hk|]. split; [exact Hmake|]. split; [exact Hgood|].
  split; [exact Hbad|].
  apply (run_until_failure_stops_at_first_failing_pass demoEnv 10 demoPool
           [4; 5; 6] world0 2 Hk Hmake Hgood Hbad).
Defined.

(** X12: a run until failure over passes that all succeed never comes back:
    whatever the fuel, every unit of it is spent on a further pass, [_run]
    does not return, the pool is not joined, the lock is not released and the
    reactor is not stopped. *)
Theorem run_until_failure_never_returns_on_success (env : Env)
    (self : DistTrialRunner) (fuel : nat) (suite : TestSuite) (w : World) :
  let W := min (length (iterateTests suite)) (_maxWorkers self) in
  let pool := mkPool true true (seq 0 W) (seq 0 W) in
  claimDirectory env = None ->
  openLog env = None ->
  (∀ i, i < W -> spawnProcess env i = None) ->
  (∀ n, makeResult env n = None) ->
  (∀ n, wasSuccessful (passResult env pool (iterateTests suite) n) = true) ->
  let out := _run env self fuel suite true w in
  out.1 = Diverge
  ∧ ∃ evs,
      trace out.2 = trace w ++ evs
      ∧ length (begun evs) = fuel
      ∧ joins evs = 0
      ∧ unlocks evs = 0
      ∧ reactorStops evs = 0.
Proof.
  intros W pool Hclaim Hlog Hspawn Hmake Hgood out. subst out.
  rewrite _run_eq.
  destruct (runAsync_started env self fuel suite true w Hclaim Hlog Hspawn)
    as (res & levs & cur & k & Hshape & ->).
  fold W in Hshape. fold pool in Hshape.
  pose proof (shape_diverges _ _ _ _ _ _ _ Hshape Hmake Hgood) as ->.
  destruct (shape_passes _ _ _ _ _ _ _ _ Hshape) as (_ & _ & Hpe & _ & _ & Hfuel).
  destruct (pass_events_quiet _ Hpe) as (_ & _ & Hlu & Hlr).
  destruct (pass_events_no_join _ Hpe) as [Hlj _].
  destruct (spawned_spawns (seq 0 W)) as (_ & _ & Hsu & Hsr).
  destruct (start_events_silent _ (spawns_are_start_events (seq 0 W)))
    as (Hsj & Hsb & _).
  simpl. split; [done|].
  set (head := [announcement suite; EvClaimDirectory; EvOpenLog]).
  exists (head ++ map EvSpawn (seq 0 W) ++ levs ++ []).
  split; [done|].
  rewrite !begun_app, !joins_app, !unlocks_app, !reactorStops_app,
    Hsb, Hsj, Hsu, Hsr, Hlj, Hlu, Hlr.
  simpl. rewrite app_nil_r. done.
Qed.

Lemma run_until_failure_never_returns_on_success_witness :
  let pool := mkPool true true (seq 0 2) (seq 0 2) in
  let out := _run quietEnv demoRunner 25 demoSuite true world0 in
  claimDirectory quietEnv = None
  ∧ openLog quietEnv = None
  ∧ (∀ i, i < 2 -> spawnProcess quietEnv i = None)
  ∧ (∀ n, makeResult quietEnv n = None)
  ∧ (∀ n, wasSuccessful (passResult quietEnv pool (iterateTests demoSuite) n)
          = true)
  ∧ out.1 = Diverge
  ∧ ∃ evs,
      trace out.2 = trace world0 ++ evs
      ∧ length (begun evs) = 25
      ∧ joins evs = 0
      ∧ unlocks evs = 0
      ∧ reactorStops evs = 0.
Proof.
  intros pool out.
  assert (Hs : ∀ i, i < 2 -> spawnProcess quietEnv i = None) by reflexivity.
  assert (Hm : ∀ n, makeResult quietEnv n = None) by reflexivity.
  assert (Hg : ∀ n, wasSuccessful
                      (passResult quietEnv pool (iterateTests demoSuite) n)
                    = true) by reflexivity.
  split; [reflexivity|]. split; [reflexivity|]. split; [exact Hs|].
  split; [exact Hm|]. split; [exact Hg|].
  apply (run_until_failure_never_returns_on_success quietEnv demoRunner 25
           demoSuite world0 eq_refl eq_refl Hs Hm Hg).
Defined.

(** * The layout of the working directory *)

Lemma str_inj (n m : nat) : str n = str m -> n = m.
Proof.
  unfold str. intros H.
  assert (Hu : Nat.to_uint n = Nat.to_uint m).
  { apply (f_equal NilEmpty.uint_of_string) in H.
    rewrite !NilEmpty.usu in H. congruence. }
  apply (f_equal Nat.of_uint) in Hu. by rewrite !DecimalNat.Unsigned.of_to in Hu.
Qed.

Lemma createLocalWorkers_from (k : nat) (protocols : list nat)
    (workingDirectory : FilePath) (logFile : string) :
  let ws := imap (λ x protocol,
                    mkLocalWorker protocol
                      (child workingDirectory (str (k + x))) logFile)
              protocols in
  map lwProtocol ws = protocols
  ∧ map lwDirectory ws
      = map (λ x, child workingDirectory (str x)) (seq k (length protocols))
  ∧ Forall (λ worker, lwLog worker = logFile) ws.
Proof.
  revert k. induction protocols as [|p ps IH]; intros k; simpl; [done|].
  rewrite Nat.add_0_r.
  assert (Hext : imap ((λ x protocol,
                          mkLocalWorker protocol
                            (child workingDirectory (str (k + x))) logFile) ∘ S)
                   ps
                 = imap (λ x protocol,
                           mkLocalWorker protocol
                             (child workingDirectory (str (S k + x))) logFile)
                     ps).
  { apply imap_ext. intros i x _. simpl. do 3 f_equal. lia. }
  rewrite Hext. destruct (IH (S k)) as (-> & -> & Hlog).
  repeat split; auto.
Qed.

(** X13: [createLocalWorkers] makes one worker per protocol, in order, all
    writing to the one test log; the worker at index [x] gets the child
    directory named by the decimal of [x], so that no two workers share a
    directory. *)
Theorem local_workers_get_distinct_directories (protocols : list nat)
    (workingDirectory : FilePath) (logFile : string) :
  let ws := Layout.createLocalWorkers protocols workingDirectory logFile in
  length ws = length protocols
  ∧ map lwProtocol ws = protocols
  ∧ (∀ x worker, ws !! x = Some worker ->
       lwDirectory worker = workingDirectory ++ [str x]
       ∧ lwLog worker = logFile)
  ∧ NoDup (map lwDirectory ws).
Proof.
  intros ws.
  pose proof (createLocalWorkers_from 0 protocols workingDirectory logFile)
    as Hfrom.
  cbv zeta in Hfrom. cbn [Nat.add] in Hfrom.
  change (imap _ protocols) with ws in Hfrom. destruct Hfrom as (Hp & Hd & Hl).
  split; [unfold ws, Layout.createLocalWorkers; apply length_imap|].
  split; [done|]. split.
  - intros x worker Hx. split.
    + assert (Hdx : map lwDirectory ws !! x = Some (lwDirectory worker))
        by (by rewrite list_lookup_fmap, Hx).
      rewrite Hd, list_lookup_fmap in Hdx.
      destruct (seq 0 (length protocols) !! x) as [y|] eqn:Hy; [|done].
      apply lookup_seq in Hy as [-> _]. simpl in Hdx. by simplify_eq.
    + rewrite Forall_forall in Hl. apply Hl.
      by eapply list_elem_of_lookup_2.
  - rewrite Hd. apply NoDup_fmap_2; [|apply NoDup_seq].
    intros x y Hxy. unfold child in Hxy.
    apply app_inv_head in Hxy. injection Hxy as Hxy. by apply str_inj.
Qed.

Lemma local_workers_get_distinct_directories_witness :
  let ws := Layout.createLocalWorkers [7; 8; 9] ["_trial_temp"] "test.log" in
  map lwDirectory ws
    = [["_trial_temp"; "0"]; ["_trial_temp"; "1"]; ["_trial_temp"; "2"]]
  ∧ NoDup (map lwDirectory ws).
Proof.
  split; [reflexivity|].
  apply (local_workers_get_distinct_directories [7; 8; 9] ["_trial_temp"]
           "test.log").
Defined.

(** * What the spawner is called with *)

Lemma launch_calls (p : Platform) (spawner : SpawnCall -> option Exn)
    (protocols : list nat) (arguments : list string) :
  let out := Launch._launchWorkerProcesses p spawner protocols arguments in
  out.1 = map (Launch.spawnCall p arguments) (take (length out.1) protocols)
  ∧ match out.2 with
    | None => length out.1 = length protocols
              ∧ Forall (λ c, spawner c = None) out.1
    | Some e => ∃ calls c, out.1 = calls ++ [c] ∧ spawner c = Some e
                           ∧ Forall (λ c, spawner c = None) calls
    end.
Proof.
  induction protocols as [|w ws IH]; simpl; [done|].
  destruct (spawner (Launch.spawnCall p arguments w)) as [e|] eqn:Hw; simpl.
  - split; [done|]. exists [], (Launch.spawnCall p arguments w). auto.
  - destruct (Launch._launchWorkerProcesses p spawner ws arguments)
      as [calls outcome]. simpl in *. destruct IH as [IH1 IH2].
    split; [by f_equal|]. destruct outcome as [e|].
    + destruct IH2 as (cs & c & -> & Hc & Hcs).
      exists (Launch.spawnCall p arguments w :: cs), c. auto.
    + destruct IH2 as [-> Hall]. auto.
Qed.

(** X14: the spawner is called once per protocol, in order, until a call
    raises, and every call made is the same but for its protocol: the
    interpreter as executable and as first argument, then the path of the
    worker script, then the extra arguments; as environment the one of the
    parent, where only [PYTHONPATH] differs and holds the module search path
    of the parent joined by the path separator.  The loop ends with the
    exception of the first call that raises. *)
Theorem spawner_calls_share_argv_and_environment (p : Platform)
    (spawner : SpawnCall -> option Exn) (protocols : list nat)
    (arguments : list string) :
  let out := Launch._launchWorkerProcesses p spawner protocols arguments in
  map scProtocol out.1 = take (length out.1) protocols
  ∧ (out.2 = None -> length out.1 = length protocols)
  ∧ (∀ e, out.2 = Some e ->
       ∃ calls c, out.1 = calls ++ [c] ∧ spawner c = Some e
                  ∧ Forall (λ c, spawner c = None) calls)
  ∧ (∀ c, c ∈ out.1 ->
       scExecutable c = sys_executable p
       ∧ scArgs c = sys_executable p :: workertrialPath p :: arguments
       ∧ scEnv c !! "PYTHONPATH"
           = Some (String.concat (os_pathsep p) (sys_path p))
       ∧ (∀ name, name ≠ "PYTHONPATH" -> scEnv c !! name = os_environ p !! name)).
Proof.
  intros out. destruct (launch_calls p spawner protocols arguments) as [Hcalls Hout].
  fold out in Hcalls, Hout. split; [|split; [|split]].
  - rewrite Hcalls at 1. rewrite <- list_fmap_compose.
    by rewrite list_fmap_id.
  - intros Hnone. rewrite Hnone in Hout. by destruct Hout.
  - intros e He. by rewrite He in Hout.
  - intros c Hc. rewrite Hcalls in Hc.
    apply list_elem_of_fmap in Hc as (w & -> & _). simpl.
    split; [done|]. split; [done|]. unfold Launch.environ. split.
    + apply lookup_insert_eq.
    + intros name Hname. by apply lookup_insert_ne.
Qed.

Lemma spawner_calls_share_argv_and_environment_witness :
  let out := Launch._launchWorkerProcesses demoPlatform
               (λ c, if scProtocol c =? 1 then Some (Exception "fork failed")
                     else None)
               [0; 1; 2] ["--force-gc"] in
  map scProtocol out.1 = [0; 1]
  ∧ out.2 = Some (Exception "fork failed")
  ∧ (∀ c, c ∈ out.1 ->
       scArgs c = ["/usr/bin/python3";
                   "/usr/lib/python3/twisted/trial/_dist/workertrial.py";
                   "--force-gc"]
       ∧ scEnv c !! "PYTHONPATH" = Some "/srv/app:/usr/lib/python3"
       ∧ scEnv c !! "HOME" = Some "/root").
Proof.
  intros out.
  destruct (spawner_calls_share_argv_and_environment demoPlatform
              (λ c, if scProtocol c =? 1 then Some (Exception "fork failed")
                    else None)
              [0; 1; 2] ["--force-gc"]) as (Hp & _ & _ & Hc).
  fold out in Hp, Hc. split; [exact Hp|]. split; [reflexivity|].
  intros c Hin. destruct (Hc c Hin) as (_ & Ha & He & Hrest).
  split; [exact Ha|]. split; [exact He|].
  rewrite (Hrest "HOME") by done. reflexivity.
Defined.



(** * The synchronous bridge *)

Lemma _run_after (env : Env) (self : DistTrialRunner) (fuel : nat)
    (suite : TestSuite) (untilFailure : bool) (w w' : World)
    (res : Res Reporter) (evs : list Event) :
  runAsync env self fuel suite untilFailure w = (res, w') ->
  trace w' = trace w ++ evs ->
  res ≠ Diverge ->
  _run env self fuel suite untilFailure w
  = (if suspended evs then res
     else match stopWhenNotRunning env with
          | Some _ => Diverge
          | None => res
          end,
     extend w' [EvReactorStop]).
Proof.
  intros Hrun Htrace Hres. rewrite _run_eq, Hrun, Htrace, session_events.
  destruct res as [r|x|]; [| |done];
    by destruct (suspended evs), (stopWhenNotRunning env).
Qed.

Lemma suspended_app (a b : list Event) :
  suspended (a ++ b) = suspended a || suspended b.
Proof. apply existsb_app. Qed.

Lemma spawns_not_awaited (l : list nat) : suspended (map EvSpawn l) = false.
Proof.
  apply (start_events_no_exit _ (spawns_are_start_events l)).
Qed.

Lemma exits_awaited (env : Env) (ws : list nat) :
  suspended (flat_map (exitAttempt env) ws)
  = match ws with [] => false | _ :: _ => true end.
Proof. by destruct ws. Qed.

Lemma joinEvents_awaited (env : Env) (pool : StartedWorkerPool) :
  suspended (joinEvents env pool)
  = match workers pool with [] => false | _ :: _ => true end.
Proof.
  unfold joinEvents. change (EvJoin :: ?l) with ([EvJoin] ++ l).
  rewrite !suspended_app, exits_awaited. simpl.
  destruct (workers pool); simpl; by rewrite ?orb_false_r.
Qed.

Section IdlePool.

Variable env : Env.
Variable untilFailure : bool.
Variable pool : StartedWorkerPool.
Variable testCases : list TestCase.
Hypothesis no_worker : ampWorkers pool = [].

Lemma idle_passFan (n : nat) : dispatched (passFan env pool testCases n) = [].
Proof.
  unfold passFan, parallel. rewrite no_worker. simpl length.
  by rewrite settled_stays.
Qed.

Lemma idle_pass_not_awaited (n : nat) :
  suspended (passHead untilFailure n) = false
  ∧ suspended (passEvents env untilFailure pool testCases n) = false.
Proof.
  assert (Hh : suspended (passHead untilFailure n) = false)
    by (by destruct untilFailure).
  split; [done|]. unfold passEvents.
  by rewrite !suspended_app, Hh, idle_passFan.
Qed.

Lemma shape_idle (n fuel : nat) (res : Res Reporter) (evs : list Event) :
  LoopShape env untilFailure pool testCases n fuel res evs ->
  suspended evs = false.
Proof.
  induction 1 as [n|n fuel e Hmk|n fuel Hmk Hstop
                 |n fuel res evs Hmk Hgo Hrest IH];
    try destruct (idle_pass_not_awaited n) as [Hh Hp]; try done.
  by rewrite suspended_app, Hp, IH.
Qed.

End IdlePool.

Lemma shape_single_result (env : Env) (pool : StartedWorkerPool)
    (testCases : list TestCase) (n fuel : nat) (res : Res Reporter)
    (evs : list Event) :
  LoopShape env false pool testCases n (S fuel) res evs ->
  makeResult env n = None ->
  res = Ok (passResult env pool testCases n).
Proof. inversion 1; subst; [congruence|done|done]. Qed.

(** C7 (code bug): a started pool without workers, as an empty suite gives
    it, never suspends the coroutine of [runAsync]: the one pass comes back,
    the pool is joined once and the lock released, but [_run] calls
    [reactor.stop()] before [reactor.run()]; on a reactor that refuses the
    call, [_run] does not hand over the finalized reporter: it never
    returns. *)
Theorem idle_pool_session_never_hands_back (env : Env)
    (self : DistTrialRunner) (fuel : nat) (suite : TestSuite)
    (untilFailure : bool) (w : World) (e : Exn) :
  stopWhenNotRunning env = Some e ->
  claimDirectory env = None ->
  openLog env = None ->
  min (length (iterateTests suite)) (_maxWorkers self) = 0 ->
  let inner := runAsync env self fuel suite untilFailure w in
  let out := _run env self fuel suite untilFailure w in
  ∃ evs,
    trace inner.2 = trace w ++ evs
    ∧ (untilFailure = false -> 1 <= fuel -> inner.1 ≠ Diverge)
    ∧ (untilFailure = false -> 1 <= fuel -> makeResult env 0 = None ->
         ∃ r, inner.1 = Ok r ∧ doneCalls r = 1)
    ∧ (inner.1 ≠ Diverge ->
         joins evs = 1
         ∧ unlocks evs = 1
         ∧ out.1 = Diverge
         ∧ trace out.2 = trace w ++ evs ++ [EvReactorStop]).
Proof.
  intros Hstrict Hclaim Hlog HW inner out. subst inner out.
  assert (Hspawn : ∀ i, i < min (length (iterateTests suite)) (_maxWorkers self) ->
                        spawnProcess env i = None) by (intros i Hi; lia).
  destruct (runAsync_started env self fuel suite untilFailure w Hclaim Hlog Hspawn)
    as (res & levs & cur & k & Hshape & Hrun).
  rewrite HW in Hshape, Hrun. simpl seq in Hshape, Hrun.
  set (pool := mkPool true true [] []) in *.
  destruct (shape_passes _ _ _ _ _ _ _ _ Hshape) as (_ & _ & Hpe & _).
  destruct (pass_events_quiet _ Hpe) as (_ & _ & Hlu & _).
  destruct (pass_events_no_join _ Hpe) as [Hlj _].
  pose proof (shape_idle env untilFailure pool (iterateTests suite) eq_refl
                _ _ _ _ Hshape) as Hidle.
  set (head := [announcement suite; EvClaimDirectory; EvOpenLog]).
  set (tail := match res with
               | Diverge => []
               | _ => joinEvents env pool
               end) in *.
  assert (Htrace :
    trace (runAsync env self fuel suite untilFailure w).2
      = trace w ++ head ++ levs ++ tail) by (by rewrite Hrun).
  exists (head ++ levs ++ tail).
  split; [exact Htrace|]. rewrite Hrun. simpl fst. split; [|split].
  - intros -> Hfuel. destruct fuel as [|fuel]; [lia|].
    by destruct (shape_single_pass _ _ _ _ _ _ _ Hshape) as [_ ?].
  - intros -> Hfuel Hmk. destruct fuel as [|fuel]; [lia|].
    rewrite (shape_single_result _ _ _ _ _ _ _ Hshape Hmk).
    eexists. split; [done|]. apply passResult_finalized.
  - intros Hres.
    assert (Htail : tail = joinEvents env pool) by (subst tail; by destruct res).
    assert (Hevs : joins (head ++ levs ++ tail) = 1
                   ∧ unlocks (head ++ levs ++ tail) = 1
                   ∧ suspended (head ++ levs ++ tail) = false).
    { rewrite Htail, !joins_app, !unlocks_app, !suspended_app, Hlj, Hlu, Hidle.
      done. }
    destruct Hevs as (Hj & Hu & Hs).
    split; [done|]. split; [done|].
    rewrite Hrun in Htrace. simpl snd in Htrace.
    rewrite (_run_after _ _ _ _ _ _ _ _ _ Hrun Htrace Hres), Hs, Hstrict.
    simpl. split; [done|]. by rewrite <- app_assoc.
Qed.

Lemma idle_pool_session_never_hands_back_witness :
  let inner := runAsync quietEnv demoRunner 1 emptySuite false world0 in
  let out := _run quietEnv demoRunner 1 emptySuite false world0 in
  stopWhenNotRunning quietEnv = Some notRunning
  ∧ claimDirectory quietEnv = None
  ∧ openLog quietEnv = None
  ∧ min (length (iterateTests emptySuite)) (_maxWorkers demoRunner) = 0
  ∧ inner.1 = Ok (mkReporter [] 1)
  ∧ joins (trace inner.2) = 1
  ∧ out.1 = Diverge.
Proof.
  intros inner out.
  destruct (idle_pool_session_never_hands_back quietEnv demoRunner 1 emptySuite
              false world0 notRunning eq_refl eq_refl eq_refl eq_refl)
    as (evs & Htrace & Hback & _ & Hout).
  split; [reflexivity|]. split; [reflexivity|]. split; [reflexivity|].
  split; [reflexivity|]. split; [reflexivity|]. split; [reflexivity|].
  destruct (Hout (Hback eq_refl (le_n 1))) as (_ & _ & Hnever & _).
  exact Hnever.
Defined.

(** The same session on a reactor that accepts [stop()] before [run()] hands
    the reporter over. *)
Example idle_pool_on_lenient_reactor :
  (_run lenientEnv demoRunner 1 emptySuite false world0).1
  = Ok (mkReporter [] 1).
Proof. vm_compute. done. Qed.

(** X9: when the pool has started with at least one worker and the loop has
    come back, the coroutine of [runAsync] has awaited its workers, and [_run]
    stops the reactor exactly once, as the last thing it does, and hands over
    what [runAsync] produced, a reporter or an exception.  On a startup
    failure the coroutine ends before [reactor.run()] is entered: on a reactor
    that refuses [stop()] while it is not running [_run] never returns and the
    startup error does not reach its caller; on a reactor that accepts it the
    error is raised again. *)
Theorem run_hands_back_once_workers_were_awaited (env : Env)
    (self : DistTrialRunner) (fuel : nat) (suite : TestSuite)
    (untilFailure : bool) (w : World) :
  let W := min (length (iterateTests suite)) (_maxWorkers self) in
  let inner := runAsync env self fuel suite untilFailure w in
  let out := _run env self fuel suite untilFailure w in
  (claimDirectory env = None -> openLog env = None ->
   (∀ i, i < W -> spawnProcess env i = None) ->
   1 <= W -> inner.1 ≠ Diverge ->
   out.1 = inner.1
   ∧ ∃ evs, trace inner.2 = trace w ++ evs
            ∧ reactorStops evs = 0
            ∧ trace out.2 = trace w ++ evs ++ [EvReactorStop])
  ∧ (∀ e w1,
       start env (poolConfig self (iterateTests suite)) (announced suite w)
         = (Raise e, w1) ->
       inner.1 = Raise e
       ∧ (stopWhenNotRunning env ≠ None -> out.1 = Diverge)
       ∧ (stopWhenNotRunning env = None -> out.1 = Raise e)).
Proof.
  intros W inner out. subst inner out. split.
  - intros Hclaim Hlog Hspawn HW Hres.
    destruct (runAsync_no_stop env self fuel suite untilFailure w)
      as (evs & Htrace & Hstops).
    destruct (runAsync_started env self fuel suite untilFailure w Hclaim Hlog
                Hspawn) as (res & levs & cur & k & Hshape & Hrun).
    fold W in Hrun. rewrite Hrun in Htrace, Hres. simpl in Htrace, Hres.
    assert (Hs : suspended evs = true).
    { apply app_inv_head in Htrace. rewrite <- Htrace.
      change (announcement suite :: EvClaimDirectory :: EvOpenLog :: ?l)
        with ([announcement suite; EvClaimDirectory; EvOpenLog] ++ l).
      assert (Htail : match res with
                      | Diverge => []
                      | _ => joinEvents env (mkPool true true (seq 0 W) (seq 0 W))
                      end = joinEvents env (mkPool true true (seq 0 W) (seq 0 W)))
        by (by destruct res).
      rewrite Htail, !suspended_app, joinEvents_awaited. simpl workers.
      destruct W; [lia|]. simpl. by rewrite !orb_true_r. }
    rewrite Hrun. simpl fst. simpl snd.
    rewrite (_run_after _ _ _ _ _ _ _ _ _ Hrun Htrace Hres), Hs. simpl.
    split; [done|]. exists evs. rewrite Htrace, <- app_assoc. done.
  - intros e w1 Hstart.
    assert (Hrun : runAsync env self fuel suite untilFailure w = (Raise e, w1))
      by (by rewrite runAsync_eq, Hstart).
    destruct (start_frame env (poolConfig self (iterateTests suite))
                (announced suite w)) as (sres & sevs & Heq & Hsev & _).
    rewrite Hstart in Heq. injection Heq as _ Hw1.
    destruct (start_events_no_exit _ Hsev) as [_ Hs].
    assert (Htrace : trace w1 = trace w ++ [announcement suite] ++ sevs)
      by (rewrite Hw1; simpl; by rewrite <- app_assoc).
    assert (Hno : suspended ([announcement suite] ++ sevs) = false) by done.
    rewrite Hrun. simpl fst.
    rewrite (_run_after _ _ _ _ _ _ _ _ _ Hrun Htrace), Hno by done. simpl.
    split; [done|]. destruct (stopWhenNotRunning env); split; done.
Qed.

Lemma run_hands_back_once_workers_were_awaited_witness :
  let inner := runAsync demoEnv demoRunner 10 demoSuite true world0 in
  let out := _run demoEnv demoRunner 10 demoSuite true world0 in
  out.1 = inner.1
  ∧ (∃ evs, trace inner.2 = trace world0 ++ evs
            ∧ reactorStops evs = 0
            ∧ trace out.2 = trace world0 ++ evs ++ [EvReactorStop])
  ∧ (_run lockedOut demoRunner 10 demoSuite true world0).1 = Diverge.
Proof.
  intros inner out.
  destruct (run_hands_back_once_workers_were_awaited demoEnv demoRunner 10
              demoSuite true world0) as [Hback _].
  destruct (run_hands_back_once_workers_were_awaited lockedOut demoRunner 10
              demoSuite true world0) as [_ Hfail].
  assert (Hs : ∀ i, i < 2 -> spawnProcess demoEnv i = None) by reflexivity.
  assert (Hw : 1 <= 2) by lia.
  assert (Hres : inner.1 ≠ Diverge) by (vm_compute; discriminate).
  destruct (Hback eq_refl eq_refl Hs Hw Hres) as [H1 H2].
  split; [exact H1|]. split; [exact H2|].
  destruct (Hfail (Exception "no usable directory")
              (mkWorld [announcement demoSuite; EvClaimDirectory] newReporter 0)
              eq_refl) as (_ & Hnever & _).
  apply Hnever. discriminate.
Defined.
